(** * srv: routes, groups, middleware and their composition

    A shallow embedding of [middleware.go] (package [srv]) and of the
    stand-alone [Redirect] handler.

    Handlers are state transformers over an abstract [World] (the response
    writer and whatever else a handler can touch).  Slices of [Route] are
    modelled as Go has them: a header (pointer, length, capacity) into a
    store of backing-array cells, because [Routes.Wrap], [Group.compose] and
    [Router.Compose] assign through an index into those arrays.  The code
    never assigns through an index into a [[]Group] or a [[]Mware], and
    [compose] and [Compose] only read the ones they are given; those two
    are kept as lists and [append] on them is list concatenation.  The
    multiplexer of net/http is a collaborator: a type with the operation
    [HandleFunc], which registers or panics; when it does which is left
    open.  A call that reaches the multiplexer returns, panics or ends the
    process, and a panic leaves the store and the multiplexer as they are
    at that point. *)

From Stdlib Require Import String Ascii List Lia PeanoNat.
From stdpp Require Import base tactics option list gmap strings.

Set Warnings "-register-all".
Open Scope string_scope.
Open Scope list_scope.

(** ** Process outcome: a Go call either returns or the process exits *)

Inductive outcome (A : Type) : Type :=
| Ret (a : A)
| Exit (code : nat) (diagnostic : string).
Arguments Ret {A} a.
Arguments Exit {A} code diagnostic.

#[export] Instance outcome_ret : MRet outcome := fun A a => Ret a.

#[export] Instance outcome_bind : MBind outcome := fun A B k x =>
  match x with
  | Ret a => k a
  | Exit c d => Exit c d
  end.

(** How a loop of calls of [HandleFunc] ends: every registration was
    accepted, or [HandleFunc] panicked; with the multiplexer as it is
    then. *)
Inductive registration (Mux : Type) : Type :=
| Accepted (server : Mux)
| Refused (server : Mux).
Arguments Accepted {Mux} server.
Arguments Refused {Mux} server.

(** [log.Fatal] and [log.Fatalf]: print, then [os.Exit(1)].  [Handle] spells
    the same thing out as [log.Output] followed by [os.Exit(1)]. *)
Definition log_Fatal {A : Type} (msg : string) : outcome A := Exit 1 msg.

Definition pkg : string := "srv".

(** ** Slice headers *)

Record slice : Type := Slice { ptr : nat; len : nat; cap : nat }.

(** The nil slice, the zero value of a slice-typed field. *)
Definition nil_slice : slice := Slice 0 0 0.

(** What the Go runtime leaves open: the capacity [append] picks when it has
    to move a slice to a new backing array. *)
Class Runtime : Type := { growcap : nat -> nat -> nat }.

Section Model.
Context {Request World : Type}.

(** ** Handlers, middleware, routes *)

Definition HandlerFunc : Type := Request -> World -> World.

Definition Mware : Type := HandlerFunc -> HandlerFunc.

Record Route : Type := mkRoute { pattern : string; fn : HandlerFunc }.

(** [r.fn = h] on a Route variable. *)
Definition set_fn (r : Route) (h : HandlerFunc) : Route :=
  {| pattern := pattern r; fn := h |}.

(** The Route read from a cell nobody wrote; the handler that does
    nothing stands for the nil function, which this code never calls. *)
Definition zero_Route : Route := {| pattern := ""; fn := fun _ w => w |}.

#[export] Instance Route_inhabited : Inhabited Route := populate zero_Route.

Inductive Group : Type :=
| mkGroup (groups : list Group) (routes : slice) (wrap : list Mware).

Definition groups (g : Group) : list Group :=
  match g with mkGroup gs _ _ => gs end.
Definition routes (g : Group) : slice :=
  match g with mkGroup _ rs _ => rs end.
Definition wrap (g : Group) : list Mware :=
  match g with mkGroup _ _ mw => mw end.

(** The zero value [Group{}]. *)
Definition zero_Group : Group := mkGroup [] nil_slice [].

(** ** Values of type [any], by dynamic type *)

Inductive any : Type :=
| OfNil
    (* the nil interface value *)
| OfHandler (type_name : string) (ServeHTTP : HandlerFunc)
    (* a value of a type, other than http.HandlerFunc, with a ServeHTTP method *)
| OfHandlerFunc (f : HandlerFunc)
    (* http.HandlerFunc *)
| OfFunc (f : HandlerFunc)
    (* func(http.ResponseWriter, *http.Request) *)
| OfGroup (g : Group)
| OfGroups (gs : list Group)
    (* []Group *)
| OfRoute (r : Route)
| OfRouteSlice (s : slice)
    (* []Route *)
| OfRoutes (s : slice)
    (* the named type Routes *)
| OfString (s : string)
| OfOther (type_name : string).
    (* a value of any other type, without a ServeHTTP method *)

(** The [%T] verb of package fmt. *)
Definition type_name_of (v : any) : string :=
  match v with
  | OfNil => "<nil>"
  | OfHandler t _ => t
  | OfHandlerFunc _ => "http.HandlerFunc"
  | OfFunc _ => "func(http.ResponseWriter, *http.Request)"
  | OfGroup _ => "srv.Group"
  | OfGroups _ => "[]srv.Group"
  | OfRoute _ => "srv.Route"
  | OfRouteSlice _ => "[]srv.Route"
  | OfRoutes _ => "srv.Routes"
  | OfString _ => "string"
  | OfOther t => t
  end.

(** The [%v] verb of package fmt, which the source does not define. *)
Class Verb_v : Type := verb_v : any -> string.

(** The method set seen by [case http.Handler]: http.HandlerFunc has a
    ServeHTTP method too, which calls the function itself. *)
Definition as_Handler (h : any) : option HandlerFunc :=
  match h with
  | OfHandler _ serve => Some serve
  | OfHandlerFunc f => Some (fun req w => f req w)
  | _ => None
  end.

(** ** Handle and Route.Wrap *)

(** [for _, fn := range mw { r.fn = fn(r.fn) }] *)
Definition wrap_route (r : Route) (mw : list Mware) : Route :=
  fold_left (fun r m => set_fn r (m (fn r))) mw r.

Definition Handle (pattern : string) (h : any) (mw : list Mware) : outcome Route :=
  fn ← match as_Handler h with
        | Some ServeHTTP => Ret (fun req w => ServeHTTP req w)
        | None =>
            match h with
            | OfHandlerFunc t => Ret t
            | OfFunc t => Ret t
            | _ => log_Fatal ("require either http.Handler or http.HandlerFunc got: "
                              +:+ type_name_of h)
            end
        end;
  Ret (wrap_route {| pattern := pattern; fn := fn |} mw).

Definition Route_Wrap (r : Route) (mw : list Mware) : Route :=
  wrap_route r mw.

(** ** The store of backing arrays *)

(** [cells] holds the elements of every backing array, by address; [next]
    is the first address no array occupies yet. *)
Record store : Type := Store { cells : gmap nat Route; next : nat }.

(** [s[i]] *)
Definition index (σ : store) (s : slice) (i : nat) : Route :=
  cells σ !!! (ptr s + i).

(** The elements [s[0], ..., s[len(s)-1]] as the store has them now. *)
Definition load (σ : store) (s : slice) : list Route :=
  index σ s <$> seq 0 (len s).

(** Copy [rs] to the cells from address [a] on. *)
Fixpoint poke (a : nat) (rs : list Route) (m : gmap nat Route) : gmap nat Route :=
  match rs with
  | [] => m
  | r :: rs => poke (S a) rs (<[a := r]> m)
  end.

(** The builtin [append(s, xs...)]: within capacity the new elements go
    into the backing array of [s]; otherwise [s] and the new elements are
    copied to a new array, at least as long as needed. *)
Definition append `{Runtime} (σ : store) (s : slice) (xs : list Route)
  : store * slice :=
  let n := len s + length xs in
  if decide (n <= cap s) then
    (Store (poke (ptr s + len s) xs (cells σ)) (next σ),
     Slice (ptr s) n (cap s))
  else
    let c := Nat.max n (growcap (cap s) n) in
    (Store (poke (next σ) (load σ s ++ xs) (cells σ)) (next σ + c),
     Slice (next σ) n c).

(** [for i := range mw { s[j].fn = mw[i](s[j].fn) }] at the cell [a] of [s[j]]. *)
Definition wrap_cell (mw : list Mware) (a : nat) (m : gmap nat Route)
  : gmap nat Route :=
  fold_left (fun m w => <[a := set_fn (m !!! a) (w (fn (m !!! a)))]> m) mw m.

(** [for j := range s { for i := range mw { s[j].fn = mw[i](s[j].fn) } }] *)
Definition wrap_cells (σ : store) (s : slice) (mw : list Mware) : store :=
  Store (fold_left (fun m j => wrap_cell mw (ptr s + j) m) (seq 0 (len s)) (cells σ))
        (next σ).

(** ** Group *)

Definition Group_Wrap (g : Group) (mw : list Mware) : Group :=
  mkGroup (groups g) (routes g) (wrap g ++ mw).

(** One turn of the loop of [Group.Add]: the type switch on [v]. *)
Definition Group_add1 `{Runtime} (σ : store) (g : Group) (v : any)
  : outcome (store * Group) :=
  match v with
  | OfGroups t => Ret (σ, mkGroup (groups g ++ t) (routes g) (wrap g))
  | OfGroup t => Ret (σ, mkGroup (groups g ++ [t]) (routes g) (wrap g))
  | OfRouteSlice t =>
      let '(σ', rs) := append σ (routes g) (load σ t) in
      Ret (σ', mkGroup (groups g) rs (wrap g))
  | OfRoute t =>
      let '(σ', rs) := append σ (routes g) [t] in
      Ret (σ', mkGroup (groups g) rs (wrap g))
  | OfString _ => log_Fatal ("use " +:+ pkg +:+ ".Handle() to add an endpoint")
  | t => log_Fatal ("unknown type: " +:+ type_name_of t)
  end.

Fixpoint Group_Add `{Runtime} (σ : store) (g : Group) (v : list any)
  : outcome (store * Group) :=
  match v with
  | [] => Ret (σ, g)
  | x :: v => '(σ', g') ← Group_add1 σ g x; Group_Add σ' g' v
  end.

(** [for _, group := range gs { acc = append(acc, group.compose()...) }],
    the loop that [compose] and [Router.Compose] both run. *)
Definition gather `{Runtime} (compose : store -> Group -> store * slice)
  (gs : list Group) (σ : store) (acc : slice) : store * slice :=
  fold_left (fun '(σ, acc) group =>
               let '(σ', t) := compose σ group in
               append σ' acc (load σ' t))
            gs (σ, acc).

Fixpoint compose `{Runtime} (σ : store) (g : Group) {struct g} : store * slice :=
  match g with
  | mkGroup gs rs mw =>
      let '(σ1, rs1) := gather compose gs σ rs in
      (wrap_cells σ1 rs1 mw, rs1)
  end.

(** ** Routes *)

Definition Routes_Wrap (σ : store) (r : slice) (mw : list Mware) : store * slice :=
  (wrap_cells σ r mw, r).

(** ** The multiplexer, a collaborator from net/http *)

(** [HandleFunc] registers the handler for the pattern, or it panics, as
    net/http's does for a pattern it cannot take, a pattern that is
    registered already among them.  [None] is the panic; it leaves the
    multiplexer as it was. *)
Class ServeMux (Mux : Type) : Type :=
  { NewServeMux : Mux;
    HandleFunc : Mux -> string -> HandlerFunc -> option Mux }.

(** How a call that registers routes ends: it returns the multiplexer, it
    panics in [HandleFunc], or the process exits; with the store as the
    call leaves it. *)
Inductive result (Mux : Type) : Type :=
| Returns (σ : store) (server : Mux)
| Panics (σ : store) (server : Mux)
| Exits (code : nat) (diagnostic : string).
Arguments Returns {Mux} σ server.
Arguments Panics {Mux} σ server.
Arguments Exits {Mux} code diagnostic.

Definition ended {Mux : Type} (σ : store) (reg : registration Mux) : result Mux :=
  match reg with
  | Accepted server => Returns σ server
  | Refused server => Panics σ server
  end.

Context {Mux : Type} `{!ServeMux Mux}.

(** [for i := range r { server.HandleFunc(r[i].pattern, r[i].fn) }], for
    the indices [js] that are left. *)
Fixpoint serve_from (σ : store) (r : slice) (js : list nat) (server : Mux)
  : registration Mux :=
  match js with
  | [] => Accepted server
  | i :: js =>
      match HandleFunc server (pattern (index σ r i)) (fn (index σ r i)) with
      | Some server => serve_from σ r js server
      | None => Refused server
      end
  end.

(** [Routes.Serve] writes nothing to the store; the multiplexer it was
    filling when it panics is one nobody else holds. *)
Definition Routes_Serve (σ : store) (r : slice) : result Mux :=
  ended σ (serve_from σ r (seq 0 (len r)) NewServeMux).

(** ** Router *)

(** The field [mux] follows the pointer: it holds the multiplexer that
    [r.mux] points to. *)
Record Router : Type := mkRouter
  { mux : Mux;
    Router_groups : list Group;
    Router_routes : slice;
    Router_wrap : list Mware }.

Definition NewRouter : Router :=
  {| mux := NewServeMux; Router_groups := []; Router_routes := nil_slice;
     Router_wrap := [] |}.

Definition Router_Set (r : Router) (m : Mux) : Router :=
  {| mux := m; Router_groups := Router_groups r; Router_routes := Router_routes r;
     Router_wrap := Router_wrap r |}.

Definition Router_Wrap (r : Router) (mw : list Mware) : Router :=
  {| mux := mux r; Router_groups := Router_groups r; Router_routes := Router_routes r;
     Router_wrap := Router_wrap r ++ mw |}.

(** One turn of the loop of [Router.Add]: the type switch on [in]. *)
Definition Router_add1 `{Runtime} `{Verb_v} (σ : store) (r : Router) (v : any)
  : outcome (store * Router) :=
  match v with
  | OfGroups t =>
      Ret (σ, {| mux := mux r; Router_groups := Router_groups r ++ t;
                 Router_routes := Router_routes r; Router_wrap := Router_wrap r |})
  | OfGroup t =>
      Ret (σ, {| mux := mux r; Router_groups := Router_groups r ++ [t];
                 Router_routes := Router_routes r; Router_wrap := Router_wrap r |})
  | OfRouteSlice t =>
      let '(σ', rs) := append σ (Router_routes r) (load σ t) in
      Ret (σ', {| mux := mux r; Router_groups := Router_groups r;
                  Router_routes := rs; Router_wrap := Router_wrap r |})
  | OfRoute t =>
      let '(σ', rs) := append σ (Router_routes r) [t] in
      Ret (σ', {| mux := mux r; Router_groups := Router_groups r;
                  Router_routes := rs; Router_wrap := Router_wrap r |})
  | OfHandlerFunc _ => log_Fatal ("use " +:+ pkg +:+ ".Handle() to add endpoint")
  | OfString _ => log_Fatal ("use " +:+ pkg +:+ ".Handle() to add endpoint")
  | t => log_Fatal ("unknown type: " +:+ type_name_of t +:+ " " +:+ verb_v t)
  end.

Fixpoint Router_Add `{Runtime} `{Verb_v} (σ : store) (r : Router) (v : list any)
  : outcome (store * Router) :=
  match v with
  | [] => Ret (σ, r)
  | x :: v => '(σ', r') ← Router_add1 σ r x; Router_Add σ' r' v
  end.

(** The second loop of [Router.Compose], for the indices [js] that are
    left: wrap the route in place, then hand it to the multiplexer.  A
    panic of [HandleFunc] ends the loop with the route at hand wrapped. *)
Fixpoint wrap_and_register_from (mw : list Mware) (rs : slice) (js : list nat)
  (m : gmap nat Route) (server : Mux) : gmap nat Route * registration Mux :=
  match js with
  | [] => (m, Accepted server)
  | j :: js =>
      let a := ptr rs + j in
      let m' := wrap_cell mw a m in
      match HandleFunc server (pattern (m' !!! a)) (fn (m' !!! a)) with
      | Some server => wrap_and_register_from mw rs js m' server
      | None => (m', Refused server)
      end
  end.

Definition wrap_and_register (mw : list Mware) (rs : slice) (σ : store) (server : Mux)
  : result Mux :=
  let '(m, reg) := wrap_and_register_from mw rs (seq 0 (len rs)) (cells σ) server in
  ended (Store m (next σ)) reg.

Definition Router_Compose `{Runtime} `{Verb_v} (σ : store) (r : Router) (v : list any)
  : result Mux :=
  match Router_Add σ r v with
  | Ret (σ0, r) =>
      let '(σ1, rs) := gather compose (Router_groups r) σ0 (Router_routes r) in
      wrap_and_register (Router_wrap r) rs σ1 (mux r)
  | Exit c d => Exits c d
  end.

End Model.

Arguments Returns {Request World Mux} σ server.
Arguments Panics {Request World Mux} σ server.
Arguments Exits {Request World Mux} code diagnostic.

(** ** Redirect *)

(** The fields of [*http.Request] that [Redirect] reads or writes. *)
Record HttpRequest : Type := mkRequest
  { Host : string;
    URL_Path : string;
    URL_RawQuery : string }.

(** A call of [http.Redirect(res, req, target, code)]. *)
Record redirection : Type := mkRedirection
  { target : string;
    code : nat }.

Definition StatusTemporaryRedirect : nat := 307.

(** The handler [Redirect(HTTP, HTTPS)] returns, as a function of the request:
    the request as the handler leaves it and the redirection it issues. *)
Definition Redirect (HTTP HTTPS : string) (req : HttpRequest)
  : HttpRequest * redirection :=
  let req :=
    if String.eqb (Host req) ("localhost" +:+ HTTP)
    then {| Host := "localhost" +:+ HTTPS;
            URL_Path := URL_Path req; URL_RawQuery := URL_RawQuery req |}
    else req in
  let target := "https://" +:+ Host req +:+ URL_Path req in
  let target :=
    if Nat.ltb 0 (String.length (URL_RawQuery req))
    then target +:+ "?" +:+ URL_RawQuery req
    else target in
  (req, {| target := target; code := StatusTemporaryRedirect |}).

(** * Specification vocabulary *)

Section Vocabulary.
Context {Request World : Type}.
Local Abbreviation HandlerFunc := (@HandlerFunc Request World).
Local Abbreviation Mware := (@Mware Request World).
Local Abbreviation Route := (@Route Request World).
Local Abbreviation Group := (@Group Request World).
Local Abbreviation store := (@store Request World).

(** [mn(...(m1(h)))] *)
Definition chain (mw : list Mware) (h : HandlerFunc) : HandlerFunc :=
  fold_left (fun f m => m f) mw h.

(** The handler inputs [Handle] recognizes, adapted to a plain handler
    function. *)
Definition adapt (h : any) : option HandlerFunc :=
  match h with
  | OfHandler _ ServeHTTP => Some ServeHTTP
  | OfHandlerFunc f => Some f
  | OfFunc f => Some f
  | _ => None
  end.

(** The inputs [Group.Add] and [Router.Add] take: a Group, a []Group, a
    Route or a []Route. *)
Definition accepted (v : @any Request World) : bool :=
  match v with
  | OfGroup _ | OfGroups _ | OfRoute _ | OfRouteSlice _ => true
  | _ => false
  end.

(** A middleware in onion form: its pre-logic, the wrapped handler, its
    post-logic. *)
Definition onion (layer : HandlerFunc * HandlerFunc) : Mware :=
  fun next req w => layer.2 req (next req (layer.1 req w)).

(** The pre-logic of the layers [m1, ..., mn], mn's first and m1's last. *)
Definition enter (layers : list (HandlerFunc * HandlerFunc)) : HandlerFunc :=
  fun req w => fold_right (fun layer w => layer.1 req w) w layers.

(** The post-logic of the layers [m1, ..., mn], m1's first and mn's last. *)
Definition leave (layers : list (HandlerFunc * HandlerFunc)) : HandlerFunc :=
  fun req w => fold_left (fun w layer => layer.2 req w) layers w.

(** The contents of a Group as a tree of route lists, without storage. *)
Inductive Tree : Type :=
| Node (subs : list Tree) (direct : list Route) (mw : list Mware).

(** Composition as the specification words it: the direct routes, then
    every sub-group's composition in declaration order, each route wrapped
    by the group's own middleware. *)
Fixpoint flatten (t : Tree) : list Route :=
  match t with
  | Node subs direct mw =>
      (fun r => Route_Wrap r mw) <$> (direct ++ concat (flatten <$> subs))
  end.

(** The tree a Group stands for in a store. *)
Fixpoint content (σ : store) (g : Group) : Tree :=
  match g with
  | mkGroup gs rs mw => Node (content σ <$> gs) (load σ rs) mw
  end.

(** The tree a Group stands for after [g.compose()] ran in [σ] on unshared
    storage: [compose] has wrapped the direct routes of a group in place
    when the whole list that group composes to fits the capacity of its
    routes slice, and has left them alone when [append] had to move to a
    new backing array. *)
Fixpoint settle (σ : store) (g : Group) : Tree :=
  match g with
  | mkGroup gs rs mw =>
      Node (settle σ <$> gs)
           (if decide (len rs + length (concat ((fun g => flatten (content σ g)) <$> gs))
                       <= cap rs)
            then (fun r => Route_Wrap r mw) <$> load σ rs
            else load σ rs)
           mw
  end.

(** What [g.compose()] returns when run in [σ], read right after the call. *)
Definition composed `{Runtime} (σ : store) (g : Group) : list Route :=
  let '(σ', s) := compose σ g in load σ' s.

(** Every routes slice a Group holds, its own first. *)
Fixpoint footprint (g : Group) : list slice :=
  match g with
  | mkGroup gs rs _ => rs :: concat (footprint <$> gs)
  end.

(** How many routes a Group holds: the length of every routes slice of
    its tree. *)
Fixpoint route_count (g : Group) : nat :=
  match g with
  | mkGroup gs rs _ => len rs + sum_list (route_count <$> gs)
  end.

(** The cells of the backing array a slice may use. *)
Definition in_region (a : nat) (s : slice) : Prop :=
  ptr s <= a < ptr s + cap s.

(** Two slices whose backing storage does not overlap. *)
Definition apart (s t : slice) : Prop :=
  ptr s + cap s <= ptr t \/ ptr t + cap t <= ptr s \/ cap s = 0 \/ cap t = 0.

Fixpoint all_apart (l : list slice) : Prop :=
  match l with
  | [] => True
  | s :: l => Forall (apart s) l /\ all_apart l
  end.

(** A slice that lies inside the allocated part of the store. *)
Definition within (σ : store) (s : slice) : Prop :=
  len s <= cap s /\ ptr s + cap s <= next σ.

(** No two routes slices of the list share backing storage. *)
Definition unshared (σ : store) (l : list slice) : Prop :=
  Forall (within σ) l /\ all_apart l.

Definition Group_unshared (σ : store) (g : Group) : Prop :=
  unshared σ (footprint g).

(** [σ'] has every allocated cell of [σ] as it was, except in the storage
    of the slices of [l]. *)
Definition preserves (σ σ' : store) (l : list slice) : Prop :=
  next σ <= next σ' /\
  forall a, a < next σ -> (forall t, t ∈ l -> ~ in_region a t) ->
            cells σ' !!! a = cells σ !!! a.

(** [s] uses the backing array of [s0], or one allocated after [σ]. *)
Definition located (σ : store) (s0 s : slice) : Prop :=
  (ptr s = ptr s0 /\ cap s = cap s0) \/ next σ <= ptr s.

(** What a call that started in [σ] and accumulated into the slice [s0]
    leaves behind: the slice it returns reads as [rs], lies in the store
    and uses the array of [s0] or a new one, and the store is as it was
    outside the storage of [l]. *)
Definition leaves (σ : store) (l : list slice) (s0 : slice) (rs : list Route)
  (res : store * slice) : Prop :=
  load res.1 res.2 = rs /\ within res.1 res.2 /\ located σ s0 res.2
  /\ preserves σ res.1 l.

(** The same slice in a run in which every backing array lies [d] cells
    further on (a slice without capacity has no cell of its own, and where
    it points is of no consequence). *)
Definition shift (d : nat) (s : slice) : slice :=
  Slice (ptr s + d) (len s) (cap s).

Fixpoint shift_Group (d : nat) (g : Group) : Group :=
  match g with
  | mkGroup gs rs mw => mkGroup (shift_Group d <$> gs) (shift d rs) mw
  end.

Definition shift_any (d : nat) (v : @any Request World) : @any Request World :=
  match v with
  | OfGroup g => OfGroup (shift_Group d g)
  | OfGroups gs => OfGroups (shift_Group d <$> gs)
  | OfRouteSlice s => OfRouteSlice (shift d s)
  | OfRoutes s => OfRoutes (shift d s)
  | v => v
  end.

(** [σ'] is the store of such a run: it has at [a + d] what [σ] has at [a]. *)
Definition moved (d : nat) (σ σ' : store) : Prop :=
  next σ' = next σ + d /\ forall a, cells σ' !!! (a + d) = cells σ !!! a.

Context {Mux : Type} `{!@ServeMux Request World Mux}.

Definition Router_footprint (r : @Router Request World Mux) : list slice :=
  Router_routes r :: concat (footprint <$> Router_groups r).

Definition Router_unshared (σ : store) (r : @Router Request World Mux) : Prop :=
  unshared σ (Router_footprint r).

Definition shift_Router (d : nat) (r : @Router Request World Mux)
  : @Router Request World Mux :=
  {| mux := mux r; Router_groups := shift_Group d <$> Router_groups r;
     Router_routes := shift d (Router_routes r); Router_wrap := Router_wrap r |}.

(** The groups among the inputs of [Add], in input order. *)
Definition added_groups (v : list (@any Request World)) : list Group :=
  concat ((fun x => match x with
                    | OfGroup g => [g]
                    | OfGroups gs => gs
                    | _ => []
                    end) <$> v).

(** The []Route inputs of [Add]. *)
Definition added_slices (v : list (@any Request World)) : list slice :=
  concat ((fun x => match x with
                    | OfRouteSlice t => [t]
                    | _ => []
                    end) <$> v).

(** The routes among the inputs of [Add], in input order. *)
Definition added_routes (σ : store) (v : list (@any Request World)) : list Route :=
  concat ((fun x => match x with
                    | OfRoute t => [t]
                    | OfRouteSlice t => load σ t
                    | _ => []
                    end) <$> v).

(** A Group and inputs for [Group.Add] in unshared storage: no two routes
    slices of the Group and of the groups it holds or is given share
    backing storage, and the []Route inputs lie in the store, off the
    Group's own backing array. *)
Definition Add_unshared (σ : store) (g : Group) (v : list (@any Request World)) : Prop :=
  unshared σ (routes g :: concat (footprint <$> (groups g ++ added_groups v)))
  /\ Forall (fun t => within σ t /\ apart (routes g) t) (added_slices v).

(** A Router and inputs for it in unshared storage: no two routes slices
    of the Router and of the groups it holds or is given share backing
    storage, and the []Route inputs lie in the store, off the Router's own
    backing array. *)
Definition Compose_unshared (σ : store) (r : @Router Request World Mux)
  (v : list (@any Request World)) : Prop :=
  unshared σ (Router_routes r
              :: concat (footprint <$> (Router_groups r ++ added_groups v)))
  /\ Forall (fun t => within σ t /\ apart (Router_routes r) t) (added_slices v).

(** The contents of a Router and of the inputs of [Compose], without
    storage: the direct routes, the trees of the groups, the middleware. *)
Definition Router_content (σ : store) (r : @Router Request World Mux)
  (v : list (@any Request World)) : list Route * list Tree * list Mware :=
  (load σ (Router_routes r) ++ added_routes σ v,
   content σ <$> (Router_groups r ++ added_groups v),
   Router_wrap r).

(** The Router [r] with the inputs [v] stands for the contents [T]: the
    inputs are Groups and Routes and no storage is shared. *)
Definition Router_tree (σ : store) (r : @Router Request World Mux)
  (v : list (@any Request World)) (T : list Route * list Tree * list Mware) : Prop :=
  forallb accepted v = true /\ Compose_unshared σ r v /\ Router_content σ r v = T.

(** The flat route list of the contents [T]: the direct routes, then every
    group flattened, each route wrapped by the router's middleware. *)
Definition Router_flat (T : list Route * list Tree * list Mware) : list Route :=
  let '(direct, trees, mw) := T in
  (fun x => Route_Wrap x mw) <$> (direct ++ concat (flatten <$> trees)).

(** [mux.HandleFunc] for every route of the list, in list order, up to the
    first one the multiplexer refuses. *)
Fixpoint register_all (rs : list Route) (server : Mux) : registration Mux :=
  match rs with
  | [] => Accepted server
  | r :: rs =>
      match HandleFunc server (pattern r) (fn r) with
      | Some server => register_all rs server
      | None => Refused server
      end
  end.

(** How many of these calls of [HandleFunc] are made, the refused one
    included. *)
Fixpoint attempts (rs : list Route) (server : Mux) : nat :=
  match rs with
  | [] => 0
  | r :: rs =>
      match HandleFunc server (pattern r) (fn r) with
      | Some server => S (attempts rs server)
      | None => 1
      end
  end.

(** [s[:k]] *)
Definition prefix (k : nat) (s : slice) : slice := Slice (ptr s) k (cap s).

End Vocabulary.

(** * A concrete world for examples: handlers that write to a log *)

Definition say (msg : string) : @HandlerFunc unit (list string) :=
  fun _ w => w ++ [msg].

(** A middleware that logs before and after the handler it wraps. *)
Definition around (name : string) : @Mware unit (list string) :=
  onion (say (name +:+ ">"), say ("<" +:+ name)).

(** A multiplexer that keeps the registrations it received, in order, and
    refuses the empty pattern and a pattern it holds already. *)
#[export] Instance recording_mux
  : @ServeMux unit (list string) (list (string * @HandlerFunc unit (list string))) :=
  {| NewServeMux := [];
     HandleFunc := fun server p h =>
       if String.eqb p EmptyString || existsb (fun x => String.eqb p x.1) server
       then None else Some (server ++ [(p, h)]) |}.

(** A runtime that doubles the capacity. *)
#[export] Instance doubling : Runtime := {| growcap := fun old _ => 2 * old |}.

#[export] Instance no_verb_v : @Verb_v unit (list string) := fun _ => "".

(** What a list of routes does: the pattern of each route and the log its
    handler leaves when it serves a request. *)
Definition show (rs : list (@Route unit (list string))) : list (string * list string) :=
  (fun r => (pattern r, fn r tt [])) <$> rs.

Definition show_mux (server : list (string * @HandlerFunc unit (list string)))
  : list (string * list string) :=
  (fun '(p, h) => (p, h tt [])) <$> server.

(** How a call ended, with the multiplexer as [show_mux] has it. *)
Inductive ending : Type :=
| returned (server : list (string * list string))
| panicked (server : list (string * list string))
| exited (code : nat) (diagnostic : string).

Definition registered
  (o : @result unit (list string) (list (string * @HandlerFunc unit (list string))))
  : ending :=
  match o with
  | Returns _ server => returned (show_mux server)
  | Panics _ server => panicked (show_mux server)
  | Exits c d => exited c d
  end.

(** A store with the route ["/a"] in its only cell:
    [Group{}.Add(Handle("/a", a))] leaves it so. *)
Definition one_route : @store unit (list string) :=
  {| cells := {[ 0 := {| pattern := "/a"; fn := say "a" |} ]}; next := 1 |}.

(** The same store in a run in which the array lies five cells further on. *)
Definition one_route_moved : @store unit (list string) :=
  {| cells := {[ 5 := {| pattern := "/a"; fn := say "a" |} ]}; next := 6 |}.

(** [g := Group{}.Add(Handle("/a", a))] and its copy [g.Wrap(m)]: both hold
    the slice of the one backing array. *)
Definition plain_leaf : @Group unit (list string) := mkGroup [] (Slice 0 1 1) [].

Definition wrapped_leaf : @Group unit (list string) :=
  Group_Wrap plain_leaf [around "m"].

(** [g.Add(g.Wrap(m))]: the Group and the sub-group it was given hold the
    same slice. *)
Definition self_nested : @Group unit (list string) :=
  mkGroup [wrapped_leaf] (Slice 0 1 1) [].

(** A store with two routes, each in an array of its own. *)
Definition two_routes : @store unit (list string) :=
  {| cells := {[ 0 := {| pattern := "/a"; fn := say "a" |};
                 1 := {| pattern := "/b"; fn := say "b" |} ]};
     next := 2 |}.

(** A group with the route ["/a"] and a sub-group with the route ["/b"]. *)
Definition leaf_b : @Group unit (list string) :=
  mkGroup [] (Slice 1 1 1) [around "s"].

Definition nested : @Group unit (list string) :=
  mkGroup [leaf_b] (Slice 0 1 1) [around "g"].

(** [nested.compose()], and [nested.compose()] once more. *)
Definition composed_once : @store unit (list string) * slice :=
  compose two_routes nested.

Definition composed_twice : @store unit (list string) * slice :=
  compose composed_once.1 nested.

(** The same two routes and the same group, stored elsewhere. *)
Definition two_routes_elsewhere : @store unit (list string) :=
  {| cells := {[ 4 := {| pattern := "/b"; fn := say "b" |};
                 9 := {| pattern := "/a"; fn := say "a" |} ]};
     next := 12 |}.

Definition nested_elsewhere : @Group unit (list string) :=
  mkGroup [mkGroup [] (Slice 4 1 3) [around "s"]] (Slice 9 1 2) [around "g"].

(** [NewRouter().Wrap(r)] *)
Definition wrapped_router
  : @Router unit (list string) (list (string * @HandlerFunc unit (list string))) :=
  Router_Wrap NewRouter [around "r"].

(** * Properties *)

Section Wrapping.
Context {Request World : Type}.
Local Abbreviation HandlerFunc := (@HandlerFunc Request World).
Local Abbreviation Mware := (@Mware Request World).
Local Abbreviation Route := (@Route Request World).
Implicit Types (r : Route) (mw : list Mware) (h : HandlerFunc).

Lemma wrap_route_app r mw1 mw2 :
  wrap_route r (mw1 ++ mw2) = wrap_route (wrap_route r mw1) mw2.
Proof. unfold wrap_route. apply fold_left_app. Qed.

Lemma wrap_route_cons r (m : Mware) mw :
  wrap_route r (m :: mw) = wrap_route (set_fn r (m (fn r))) mw.
Proof. reflexivity. Qed.

Lemma pattern_wrap_route r mw : pattern (wrap_route r mw) = pattern r.
Proof.
  revert r. induction mw as [|m mw IH]; intros r; [done|].
  by rewrite wrap_route_cons, IH.
Qed.

Lemma fn_wrap_route r mw : fn (wrap_route r mw) = chain mw (fn r).
Proof.
  revert r. induction mw as [|m mw IH]; intros r; [done|].
  by rewrite wrap_route_cons, IH.
Qed.

Lemma wrap_route_eq r mw :
  wrap_route r mw = {| pattern := pattern r; fn := chain mw (fn r) |}.
Proof.
  rewrite <- (pattern_wrap_route r mw), <- fn_wrap_route.
  by destruct (wrap_route r mw).
Qed.

Lemma chain_snoc mw (m : Mware) h : chain (mw ++ [m]) h = m (chain mw h).
Proof. unfold chain. by rewrite fold_left_app. Qed.

(** Onion layers run from the outside in and back out. *)
Lemma chain_onion (layers : list (HandlerFunc * HandlerFunc)) h req w :
  chain (onion <$> layers) h req w
  = leave layers req (h req (enter layers req w)).
Proof.
  revert w. induction layers as [|layer layers IH] using rev_ind; intros w; [done|].
  rewrite fmap_app. cbn [fmap list_fmap]. rewrite chain_snoc.
  unfold onion at 1. rewrite IH.
  unfold leave, enter. by rewrite fold_left_app, fold_right_app.
Qed.

Lemma Handle_adapt (p : string) (v : any) (h' : HandlerFunc) mw :
  adapt v = Some h' ->
  Handle p v mw = Ret (wrap_route {| pattern := p; fn := h' |} mw).
Proof. intros Hv. unfold Handle. by destruct v; simplify_eq/=. Qed.

(** C1: for a recognized handler input [h], adapted to the handler
    function [h'], [Handle(p, h, m1, ..., mn)] returns the Route with
    pattern [p] and handler [mn(...(m1(h')))]; when the middleware are
    onion layers, a request runs mn's pre-logic first, down to m1's, then
    [h'], then the post-logic from m1's up to mn's. *)
Theorem Handle_wraps_in_order (p : string) (v : any) (h' : HandlerFunc) mw :
  adapt v = Some h' ->
  Handle p v mw = Ret {| pattern := p; fn := chain mw h' |}
  /\ forall layers req w,
       mw = onion <$> layers ->
       chain mw h' req w = leave layers req (h' req (enter layers req w)).
Proof.
  intros Hv. split.
  - by rewrite (Handle_adapt p v h'), wrap_route_eq.
  - intros layers req w ->. apply chain_onion.
Qed.

(** Wrapping a Route twice is wrapping it once with both lists. *)
Lemma Route_Wrap_twice r mw1 mw2 :
  Route_Wrap (Route_Wrap r mw1) mw2 = Route_Wrap r (mw1 ++ mw2).
Proof. unfold Route_Wrap. by rewrite wrap_route_app. Qed.

End Wrapping.

Section Cells.
Context {Request World : Type}.
Local Abbreviation Route := (@Route Request World).
Local Abbreviation Mware := (@Mware Request World).
Local Abbreviation store := (@store Request World).
Implicit Types (m : gmap nat Route) (σ : store) (s t : slice) (mw : list Mware).

Lemma lookup_poke a (rs : list Route) m b :
  poke a rs m !! b
  = if decide (a <= b < a + length rs) then rs !! (b - a) else m !! b.
Proof.
  revert a m. induction rs as [|r rs IH]; intros a m; cbn [poke length].
  - case_decide; [lia|done].
  - rewrite IH. destruct (decide (a = b)) as [->|Hne].
    + rewrite decide_False by lia. rewrite decide_True by lia.
      rewrite lookup_insert_eq. by replace (b - b) with 0 by lia.
    + rewrite lookup_insert_ne by done.
      repeat case_decide; try lia; try done.
      by replace (b - a) with (S (b - S a)) by lia.
Qed.

Lemma lookup_total_poke a (rs : list Route) m b :
  poke a rs m !!! b
  = if decide (a <= b < a + length rs) then rs !!! (b - a) else m !!! b.
Proof.
  rewrite lookup_total_alt, lookup_poke.
  case_decide; [|by rewrite lookup_total_alt].
  by rewrite list_lookup_total_alt.
Qed.

Lemma length_load σ s : length (load σ s) = len s.
Proof. unfold load. by rewrite length_fmap, length_seq. Qed.

Lemma lookup_load σ s i : i < len s -> load σ s !! i = Some (index σ s i).
Proof.
  intros Hi. unfold load. by rewrite list_lookup_fmap, lookup_seq_lt.
Qed.

Lemma load_ext σ σ' s :
  (forall a, ptr s <= a < ptr s + len s -> cells σ' !!! a = cells σ !!! a) ->
  load σ' s = load σ s.
Proof.
  intros Heq. unfold load. apply list_fmap_ext.
  intros i j [-> Hj]%lookup_seq. unfold index. apply Heq. lia.
Qed.

(** The elements of a slice, given cell by cell. *)
Lemma load_eq σ s (rs : list Route) :
  length rs = len s ->
  (forall i, i < len s -> cells σ !!! (ptr s + i) = rs !!! i) ->
  load σ s = rs.
Proof.
  intros Hlen Hcell. apply list_eq. intros i.
  destruct (decide (i < len s)) as [Hi|Hi].
  - rewrite lookup_load by done. unfold index. rewrite Hcell by done.
    symmetry. apply list_lookup_lookup_total_lt. lia.
  - rewrite !lookup_ge_None_2; [done|lia|rewrite length_load; lia].
Qed.

Lemma lookup_total_load σ s i :
  i < len s -> load σ s !!! i = cells σ !!! (ptr s + i).
Proof.
  intros Hi. apply list_lookup_total_correct. by rewrite lookup_load.
Qed.

Lemma lookup_wrap_cell mw a m b :
  wrap_cell mw a m !! b
  = if decide (a = b /\ mw <> []) then Some (wrap_route (m !!! a) mw) else m !! b.
Proof.
  revert m. induction mw as [|w mw IH]; intros m.
  - cbn. case_decide as Hd; [by destruct Hd|done].
  - change (wrap_cell (w :: mw) a m)
      with (wrap_cell mw a (<[a := set_fn (m !!! a) (w (fn (m !!! a)))]> m)).
    rewrite IH, lookup_total_insert_eq.
    destruct (decide (a = b)) as [->|Hne].
    + rewrite (decide_True (P := b = b /\ w :: mw <> [])) by done.
      destruct mw as [|w' mw].
      * rewrite decide_False by (intros [_ ?]; done). by rewrite lookup_insert_eq.
      * by rewrite decide_True.
    + rewrite !decide_False by (intros [? _]; done). by rewrite lookup_insert_ne.
Qed.

Lemma lookup_total_wrap_cell mw a m b :
  wrap_cell mw a m !!! b
  = if decide (a = b) then wrap_route (m !!! a) mw else m !!! b.
Proof.
  rewrite lookup_total_alt, lookup_wrap_cell.
  destruct (decide (a = b)) as [->|Hne].
  - destruct mw; [|by rewrite decide_True].
    rewrite decide_False by (intros [_ ?]; done). by rewrite lookup_total_alt.
  - rewrite decide_False by (intros [? _]; done). by rewrite lookup_total_alt.
Qed.

(** The cells after the loop over [j < n] that wraps cell [p + j]. *)
Lemma lookup_wrap_loop mw p n m b :
  fold_left (fun m j => wrap_cell mw (p + j) m) (seq 0 n) m !! b
  = if decide (p <= b < p + n /\ mw <> [])
    then Some (wrap_route (m !!! b) mw) else m !! b.
Proof.
  revert b. induction n as [|n IH]; intros b.
  - cbn. case_decide as Hd; [lia|done].
  - rewrite seq_S, fold_left_app. cbn [fold_left].
    rewrite lookup_wrap_cell, lookup_total_alt, !IH.
    destruct (decide (mw = [])) as [->|Hmw].
    + by rewrite !decide_False by (intros [_ ?]; done).
    + destruct (decide (p + n = b)) as [<-|Hne].
      * rewrite (decide_True (P := p + n = p + n /\ _)) by done.
        rewrite decide_False by lia.
        rewrite (decide_True (P := _ /\ mw <> [])) by (split; [lia|done]).
        by rewrite <- lookup_total_alt.
      * rewrite (decide_False (P := p + n = b /\ _)) by (intros [? _]; done).
        repeat case_decide; try done; exfalso;
          repeat match goal with
                 | H : _ /\ _ |- _ => destruct H
                 | H : ~ (_ /\ _) |- _ => apply H; split; [lia|done]
                 end.
Qed.

Lemma lookup_wrap_cells σ s mw b :
  cells (wrap_cells σ s mw) !! b
  = if decide (ptr s <= b < ptr s + len s /\ mw <> [])
    then Some (wrap_route (cells σ !!! b) mw) else cells σ !! b.
Proof. apply lookup_wrap_loop. Qed.

Lemma lookup_total_wrap_cells σ s mw b :
  cells (wrap_cells σ s mw) !!! b
  = if decide (ptr s <= b < ptr s + len s)
    then wrap_route (cells σ !!! b) mw else cells σ !!! b.
Proof.
  rewrite lookup_total_alt, lookup_wrap_cells.
  destruct (decide (ptr s <= b < ptr s + len s)) as [Hb|Hb].
  - destruct mw; [|by rewrite decide_True].
    rewrite decide_False by (intros [_ ?]; done). by rewrite lookup_total_alt.
  - rewrite decide_False by (intros [? _]; done). by rewrite lookup_total_alt.
Qed.

(** Wrapping in place: the slice now reads as its old elements, each
    wrapped. *)
Lemma load_wrap_cells σ s mw :
  load (wrap_cells σ s mw) s = (fun r => Route_Wrap r mw) <$> load σ s.
Proof.
  apply load_eq.
  - by rewrite length_fmap, length_load.
  - intros i Hi. rewrite lookup_total_wrap_cells, decide_True by lia.
    symmetry. apply list_lookup_total_correct.
    by rewrite list_lookup_fmap, lookup_load.
Qed.

Lemma wrap_cells_nil σ s : wrap_cells σ s [] = σ.
Proof.
  destruct σ as [m n]. unfold wrap_cells. cbn [cells next]. f_equal.
  apply map_eq. intros b. rewrite lookup_wrap_loop.
  by rewrite decide_False by (intros [_ ?]; done).
Qed.

Lemma wrap_cells_app σ s mw1 mw2 :
  wrap_cells (wrap_cells σ s mw1) s mw2 = wrap_cells σ s (mw1 ++ mw2).
Proof.
  destruct mw1 as [|w1 mw1]; [by rewrite wrap_cells_nil|].
  destruct mw2 as [|w2 mw2]; [by rewrite wrap_cells_nil, app_nil_r|].
  unfold wrap_cells at 1 3. cbn [next]. f_equal.
  apply map_eq. intros b. rewrite !lookup_wrap_loop.
  fold (cells (wrap_cells σ s (w1 :: mw1))).
  rewrite lookup_total_wrap_cells, lookup_wrap_cells.
  destruct (decide (ptr s <= b < ptr s + len s)) as [Hb|Hb].
  - rewrite !decide_True by done. by rewrite wrap_route_app.
  - by rewrite !decide_False by (intros [? _]; done).
Qed.

End Cells.

Section Storage.
Context {Request World : Type} `{Runtime}.
Local Abbreviation Route := (@Route Request World).
Local Abbreviation Mware := (@Mware Request World).
Local Abbreviation Group := (@Group Request World).
Local Abbreviation store := (@store Request World).
Implicit Types (σ : store) (s t acc : slice) (l : list slice) (g : Group).

(** *** Regions *)

Lemma apart_sym s t : apart s t -> apart t s.
Proof. unfold apart. lia. Qed.

Lemma apart_region s t a : apart s t -> in_region a s -> ~ in_region a t.
Proof. unfold apart, in_region. lia. Qed.

Lemma elem_of_concat {A} (x : A) (yss : list (list A)) :
  x ∈ concat yss <-> exists ys, ys ∈ yss /\ x ∈ ys.
Proof.
  induction yss as [|ys yss IH]; cbn.
  - split; [by intros ?%elem_of_nil|by intros (? & ?%elem_of_nil & _)].
  - rewrite elem_of_app, IH. split.
    + intros [Hx|(zs & Hl & Hx)]; [exists ys|exists zs]; rewrite elem_of_cons; eauto.
    + intros (zs & [->|Hl]%elem_of_cons & Hx); eauto.
Qed.

Lemma all_apart_app l1 l2 :
  all_apart (l1 ++ l2)
  <-> all_apart l1 /\ all_apart l2 /\ forall s t, s ∈ l1 -> t ∈ l2 -> apart s t.
Proof.
  induction l1 as [|s l1 IH]; cbn.
  - split; [|tauto]. intros Hl. repeat split; [done|]. by intros ? ? ?%elem_of_nil.
  - rewrite Forall_app, IH, !Forall_forall. split.
    + intros ((H1 & H2) & H3 & H4 & H5). repeat split; try done.
      intros s' t [->|Hs]%elem_of_cons Ht; eauto.
    + intros ((H1 & H2) & H3 & H4). repeat split; try done.
      * intros t Ht. apply H4; [apply elem_of_cons|]; eauto.
      * intros s' t Hs Ht. apply H4; [apply elem_of_cons|]; eauto.
Qed.

Lemma within_mono σ σ' s : next σ <= next σ' -> within σ s -> within σ' s.
Proof. unfold within. lia. Qed.

Lemma within_region σ s a : within σ s -> ptr s <= a < ptr s + len s ->
  a < next σ /\ in_region a s.
Proof. unfold within, in_region. lia. Qed.

(** *** Frames *)

Lemma preserves_refl σ l : preserves σ σ l.
Proof. split; [done|]. by intros. Qed.

Lemma preserves_trans σ σ1 σ2 l1 l2 l :
  preserves σ σ1 l1 -> preserves σ1 σ2 l2 ->
  (forall a, a < next σ -> (forall t, t ∈ l -> ~ in_region a t) ->
             (forall t, t ∈ l1 -> ~ in_region a t)
             /\ (forall t, t ∈ l2 -> ~ in_region a t)) ->
  preserves σ σ2 l.
Proof.
  intros [Hn1 H1] [Hn2 H2] Hl. split; [lia|].
  intros a Ha Hout. destruct (Hl a Ha Hout) as [Ho1 Ho2].
  rewrite H2 by (done || lia). by apply H1.
Qed.

Lemma load_preserved σ σ' l s :
  preserves σ σ' l -> within σ s -> (forall t, t ∈ l -> apart s t) ->
  load σ' s = load σ s.
Proof.
  intros [_ Hpres] Hs Hap. apply load_ext. intros a Ha.
  destruct (within_region _ _ _ Hs Ha) as [Hlt Hin].
  apply Hpres; [done|]. intros t Ht. apply (apart_region s); [by apply Hap|done].
Qed.

(** *** append *)

Lemma load_append σ s (xs : list Route) :
  load (append σ s xs).1 (append σ s xs).2 = load σ s ++ xs.
Proof.
  unfold append. case_decide as Hfit; cbn [fst snd].
  - apply load_eq; cbn [len ptr cells].
    + by rewrite length_app, length_load.
    + intros i Hi. rewrite lookup_total_poke.
      destruct (decide (i < len s)) as [Hlt|Hge].
      * rewrite decide_False by lia.
        rewrite lookup_total_app_l by (rewrite length_load; lia).
        by rewrite lookup_total_load.
      * rewrite decide_True by lia.
        rewrite lookup_total_app_r by (rewrite length_load; lia).
        rewrite length_load. f_equal. lia.
  - apply load_eq; cbn [len ptr cells].
    + by rewrite length_app, length_load.
    + intros i Hi. rewrite lookup_total_poke.
      rewrite decide_True by (rewrite length_app, length_load; lia).
      f_equal. lia.
Qed.

Lemma next_append σ s (xs : list Route) : next σ <= next (append σ s xs).1.
Proof. unfold append. case_decide; cbn; lia. Qed.

Lemma within_append σ s (xs : list Route) :
  within σ s -> within (append σ s xs).1 (append σ s xs).2.
Proof. unfold append, within. case_decide; cbn; lia. Qed.

Lemma located_append σ s (xs : list Route) : located σ s (append σ s xs).2.
Proof. unfold append, located. case_decide; cbn; [left|right]; done. Qed.

Lemma preserves_append σ s (xs : list Route) : preserves σ (append σ s xs).1 [s].
Proof.
  split; [apply next_append|]. intros a Ha Hout.
  assert (~ in_region a s) as Hs by (apply Hout, list_elem_of_singleton; done).
  unfold in_region in Hs.
  unfold append. case_decide as Hfit; cbn [fst cells];
    rewrite lookup_total_poke, decide_False; try done; lia.
Qed.

(** *** Groups *)

Lemma Group_nested_ind (P : Group -> Prop) :
  (forall gs rs mw, Forall P gs -> P (mkGroup gs rs mw)) -> forall g, P g.
Proof.
  intros HP. fix IH 1. intros [gs rs mw]. apply HP.
  induction gs as [|g gs IHgs]; constructor; [apply IH|apply IHgs].
Qed.

Lemma footprint_cons g : footprint g = routes g :: concat (footprint <$> groups g).
Proof. by destruct g. Qed.

(** A Group whose storage was left alone still stands for the same tree. *)
Lemma content_preserved σ σ' l g :
  preserves σ σ' l ->
  Forall (within σ) (footprint g) ->
  (forall s t, s ∈ footprint g -> t ∈ l -> apart s t) ->
  content σ' g = content σ g.
Proof.
  intros Hpres. induction g as [gs rs mw IH] using Group_nested_ind.
  cbn [footprint content]. intros [Hrs Hgs]%Forall_cons Hap. f_equal.
  - apply Forall_fmap_ext_1. rewrite Forall_forall in IH |- *.
    intros g Hg. apply IH; [done| |].
    + rewrite Forall_forall in Hgs |- *. intros s Hs. apply Hgs.
      apply elem_of_concat. exists (footprint g). split; [|done].
      apply list_elem_of_fmap. eauto.
    + intros s t Hs Ht. apply Hap; [|done]. apply elem_of_cons. right.
      apply elem_of_concat. exists (footprint g). split; [|done].
      apply list_elem_of_fmap. eauto.
  - apply (load_preserved _ _ l); [done|done|].
    intros t Ht. apply Hap; [|done]. apply elem_of_cons. by left.
Qed.

Lemma located_apart σ σ1 s0 s t :
  located σ1 s0 s -> next σ <= next σ1 -> within σ t -> apart s0 t -> apart s t.
Proof. unfold located, within, apart. lia. Qed.

Lemma located_region σ s0 s a :
  located σ s0 s -> a < next σ -> ~ in_region a s0 -> ~ in_region a s.
Proof. unfold located, in_region. lia. Qed.

Lemma located_trans σ σ1 s0 s1 s2 :
  located σ s0 s1 -> located σ1 s1 s2 -> next σ <= next σ1 -> located σ s0 s2.
Proof. unfold located. lia. Qed.

Lemma preserves_wrap_cells σ s (mw : list Mware) :
  len s <= cap s -> preserves σ (wrap_cells σ s mw) [s].
Proof.
  intros Hlen. split; [done|]. intros a Ha Hout.
  assert (~ in_region a s) as Hs by (apply Hout, list_elem_of_singleton; done).
  unfold in_region in Hs.
  rewrite lookup_total_wrap_cells, decide_False; [done|lia].
Qed.

(** The loop that appends the composition of every group of [gs] to [acc],
    when each of them composes as the specification has it. *)
Lemma gather_leaves (gs : list Group) :
  Forall (fun g => forall σ, Group_unshared σ g ->
            leaves σ (footprint g) (routes g) (flatten (content σ g)) (compose σ g)) gs ->
  forall σ acc,
    unshared σ (acc :: concat (footprint <$> gs)) ->
    leaves σ (acc :: concat (footprint <$> gs)) acc
           (load σ acc ++ concat ((fun g => flatten (content σ g)) <$> gs))
           (gather compose gs σ acc).
Proof.
  induction 1 as [|g gs Hg _ IH]; intros σ acc [Hwithin Hapart].
  - apply Forall_cons in Hwithin as [Hacc _]. cbn. rewrite app_nil_r.
    split; [done|]. split; [done|]. split; [by left|apply preserves_refl].
  - cbn [fmap list_fmap concat] in *.
    apply Forall_cons in Hwithin as [Hacc [Hwg Hwgs]%Forall_app].
    destruct Hapart as [[Hag Hags]%Forall_app (Hg1 & Hgs1 & Hcross)%all_apart_app].
    rewrite Forall_forall in Hag, Hags, Hwg, Hwgs.
    unfold gather. cbn [fold_left].
    destruct (Hg σ) as (E1 & W1 & L1 & P1); [by split; [apply Forall_forall|]|].
    destruct (compose σ g) as [σ1 t]. cbn [fst snd] in *.
    pose proof (load_append σ1 acc (load σ1 t)) as E2.
    pose proof (within_append σ1 acc (load σ1 t)) as W2.
    pose proof (located_append σ1 acc (load σ1 t)) as L2.
    pose proof (preserves_append σ1 acc (load σ1 t)) as P2.
    destruct (append σ1 acc (load σ1 t)) as [σ2 acc2]. cbn [fst snd] in *.
    change (fold_left _ gs (σ2, acc2)) with (gather compose gs σ2 acc2).
    assert (next σ <= next σ1) as N1 by apply P1.
    assert (next σ1 <= next σ2) as N2 by apply P2.
    assert (preserves σ σ2 (acc :: footprint g)) as P02.
    { eapply preserves_trans; [exact P1|exact P2|].
      intros a Ha Hout. split; intros u Hu; apply Hout.
      - apply elem_of_cons. by right.
      - apply list_elem_of_singleton in Hu as ->. apply elem_of_cons. by left. }
    destruct (IH σ2 acc2) as (E3 & W3 & L3 & P3).
    { split.
      - apply Forall_cons. split.
        + apply W2. by apply (within_mono σ).
        + apply Forall_forall. intros u Hu. apply (within_mono σ); [lia|by apply Hwgs].
      - split; [|done]. apply Forall_forall. intros u Hu.
        eapply (located_apart σ); [exact L2|lia|by apply Hwgs|by apply Hags]. }
    split; [|split; [|split]]; cbn [fst snd].
    + rewrite E3, E2, E1, <- app_assoc.
      assert ((fun g => flatten (content σ2 g)) <$> gs
              = (fun g => flatten (content σ g)) <$> gs) as ->.
      { apply Forall_fmap_ext_1, Forall_forall. intros g' Hg'. f_equal.
        assert (forall u, u ∈ footprint g' -> u ∈ concat (footprint <$> gs)) as Hin.
        { intros u Hu. apply elem_of_concat.
          exists (footprint g'). split; [|done]. apply list_elem_of_fmap. eauto. }
        apply (content_preserved _ _ (acc :: footprint g)); [done| |].
        - apply Forall_forall. intros u Hu. by apply Hwgs, Hin.
        - intros u v Hu [->|Hv]%elem_of_cons.
          + by apply apart_sym, Hags, Hin.
          + apply apart_sym, Hcross; [done|by apply Hin]. }
      by rewrite (load_preserved σ σ1 (footprint g) acc P1 Hacc).
    + done.
    + eapply (located_trans σ σ2); [|exact L3|lia].
      destruct L2 as [L2|L2]; [by left|right; lia].
    + apply (preserves_trans σ σ2 _ (acc :: footprint g) (acc2 :: concat (footprint <$> gs)));
        [done|done|].
      intros a Ha Hout. split; intros u Hu.
      * apply Hout. apply elem_of_cons in Hu as [->|Hu]; apply elem_of_cons; [by left|right].
        apply elem_of_app. by left.
      * apply elem_of_cons in Hu as [->|Hu].
        -- eapply (located_region σ1); [exact L2|lia|]. apply Hout, elem_of_cons. by left.
        -- apply Hout, elem_of_cons. right. apply elem_of_app. by right.
Qed.

Lemma footprint_sub g g' :
  g' ∈ groups g -> forall u, u ∈ footprint g' -> u ∈ footprint g.
Proof.
  intros Hg' u Hu. rewrite footprint_cons. apply elem_of_cons. right.
  apply elem_of_concat. exists (footprint g'). split; [|done].
  apply list_elem_of_fmap. eauto.
Qed.

Lemma all_apart_concat (ls : list (list slice)) k :
  all_apart (concat ls) -> k ∈ ls -> all_apart k.
Proof.
  induction ls as [|k' ls IH]; cbn; [by intros _ ?%elem_of_nil|].
  intros (Hk' & Hls & _)%all_apart_app [->|Hk]%elem_of_cons; auto.
Qed.

Lemma Group_unshared_sub σ g g' :
  Group_unshared σ g -> g' ∈ groups g -> Group_unshared σ g'.
Proof.
  intros [Hw Ha] Hg'. split.
  - rewrite Forall_forall in Hw |- *. intros u Hu. by apply Hw, (footprint_sub g g').
  - rewrite footprint_cons in Ha. destruct Ha as [_ Ha].
    apply (all_apart_concat _ _ Ha), list_elem_of_fmap. eauto.
Qed.

(** In unshared storage [compose] returns the flattened tree. *)
Lemma compose_leaves g :
  forall σ, Group_unshared σ g ->
    leaves σ (footprint g) (routes g) (flatten (content σ g)) (compose σ g).
Proof.
  induction g as [gs rs mw IH] using Group_nested_ind. intros σ Hun.
  pose proof (gather_leaves gs IH σ rs Hun) as HG.
  cbn [compose footprint routes content flatten].
  destruct (gather compose gs σ rs) as [σ1 rs1].
  destruct HG as (E & W & L & P). cbn [fst snd] in *.
  split; [|split; [|split]]; cbn [fst snd].
  - rewrite load_wrap_cells, E. by rewrite <- list_fmap_compose.
  - exact W.
  - exact L.
  - eapply preserves_trans; [exact P|apply (preserves_wrap_cells _ rs1 mw), W|].
    intros a Ha Hout. split; [done|].
    intros u ->%list_elem_of_singleton.
    eapply located_region; [exact L|done|]. apply Hout, elem_of_cons. by left.
Qed.

Lemma composed_flatten σ g :
  Group_unshared σ g -> composed σ g = flatten (content σ g).
Proof.
  intros Hun. destruct (compose_leaves g σ Hun) as [E _].
  unfold composed. by destruct (compose σ g).
Qed.

(** *** What [compose] leaves in the store *)

Lemma settle_preserved σ σ' l g :
  preserves σ σ' l ->
  Forall (within σ) (footprint g) ->
  (forall s t, s ∈ footprint g -> t ∈ l -> apart s t) ->
  settle σ' g = settle σ g.
Proof.
  intros Hpres. induction g as [gs rs mw IH] using Group_nested_ind.
  cbn [footprint settle]. intros [Hrs Hgs]%Forall_cons Hap.
  assert (forall g, g ∈ gs ->
            Forall (within σ) (footprint g)
            /\ forall s t, s ∈ footprint g -> t ∈ l -> apart s t) as Hsub.
  { intros g Hg. split.
    - rewrite Forall_forall in Hgs |- *. intros s Hs. apply Hgs.
      apply elem_of_concat. exists (footprint g). split; [|done].
      apply list_elem_of_fmap. eauto.
    - intros s t Hs Ht. apply Hap; [|done]. apply elem_of_cons. right.
      apply elem_of_concat. exists (footprint g). split; [|done].
      apply list_elem_of_fmap. eauto. }
  assert (load σ' rs = load σ rs) as ->.
  { apply (load_preserved _ _ l); [done|done|].
    intros t Ht. apply Hap; [|done]. apply elem_of_cons. by left. }
  assert ((fun g => flatten (content σ' g)) <$> gs
          = (fun g => flatten (content σ g)) <$> gs) as ->.
  { apply Forall_fmap_ext_1, Forall_forall. intros g Hg. f_equal.
    destruct (Hsub g Hg). by apply (content_preserved _ _ l). }
  f_equal. apply Forall_fmap_ext_1. rewrite Forall_forall in IH |- *.
  intros g Hg. destruct (Hsub g Hg). by apply IH.
Qed.

Lemma lookup_append_live σ s (xs : list Route) a :
  within σ s -> a < ptr s + len s ->
  cells (append σ s xs).1 !!! a = cells σ !!! a.
Proof.
  unfold within, append. intros Hs Ha.
  case_decide; cbn [fst cells]; rewrite lookup_total_poke, decide_False; try done; lia.
Qed.

Lemma append_fits σ s (xs : list Route) :
  len s + length xs <= cap s ->
  (append σ s xs).2 = Slice (ptr s) (len s + length xs) (cap s).
Proof. intros Hfit. unfold append. by rewrite decide_True. Qed.

Lemma append_moves σ s (xs : list Route) :
  cap s < len s + length xs -> ptr (append σ s xs).2 = next σ.
Proof. intros Hfit. unfold append. by rewrite decide_False by lia. Qed.

Lemma len_append σ s (xs : list Route) :
  len (append σ s xs).2 = len s + length xs.
Proof. unfold append. by case_decide. Qed.

Lemma unshared_after_append σ σ1 σ2 acc acc2 l :
  next σ <= next σ1 -> next σ1 <= next σ2 ->
  within σ2 acc2 -> located σ1 acc acc2 ->
  Forall (within σ) l -> Forall (apart acc) l -> all_apart l ->
  unshared σ2 (acc2 :: l).
Proof.
  intros N1 N2 W2 L2 Hw Ha Hl. rewrite Forall_forall in Hw, Ha. split.
  - apply Forall_cons. split; [done|]. apply Forall_forall.
    intros u Hu. apply (within_mono σ); [lia|by apply Hw].
  - split; [|done]. apply Forall_forall. intros u Hu.
    eapply (located_apart σ); [exact L2|lia|by apply Hw|by apply Ha].
Qed.

Lemma gather_cons (f : store -> Group -> store * slice) g (gs : list Group) σ acc :
  gather f (g :: gs) σ acc
  = gather f gs (append (f σ g).1 acc (load (f σ g).1 (f σ g).2)).1
                (append (f σ g).1 acc (load (f σ g).1 (f σ g).2)).2.
Proof.
  unfold gather. cbn [fold_left]. destruct (f σ g) as [σ1 t]. cbn [fst snd].
  by destruct (append σ1 acc (load σ1 t)).
Qed.

Lemma in_footprints (gs : list Group) g u :
  g ∈ gs -> u ∈ footprint g -> u ∈ concat (footprint <$> gs).
Proof.
  intros Hg Hu. apply elem_of_concat. exists (footprint g).
  split; [|done]. apply list_elem_of_fmap. eauto.
Qed.

Lemma Forall_compose_leaves (gs : list Group) :
  Forall (fun g => forall σ, Group_unshared σ g ->
            leaves σ (footprint g) (routes g) (flatten (content σ g)) (compose σ g)) gs.
Proof. apply Forall_forall. intros g _. apply compose_leaves. Qed.

(** The loop over the sub-groups leaves each of them settled and the
    elements of [acc] as they were; [acc] stays in its backing array
    exactly when everything appended fits. *)
Lemma gather_settles (gs : list Group) :
  Forall (fun g => forall σ, Group_unshared σ g ->
            content (compose σ g).1 g = settle σ g) gs ->
  forall σ acc,
    unshared σ (acc :: concat (footprint <$> gs)) ->
    content (gather compose gs σ acc).1 <$> gs = settle σ <$> gs
    /\ (forall a, ptr acc <= a < ptr acc + len acc ->
                  cells (gather compose gs σ acc).1 !!! a = cells σ !!! a)
    /\ len (gather compose gs σ acc).2
       = len acc + length (concat ((fun g => flatten (content σ g)) <$> gs))
    /\ (len acc + length (concat ((fun g => flatten (content σ g)) <$> gs)) <= cap acc ->
        ptr (gather compose gs σ acc).2 = ptr acc)
    /\ (cap acc < len acc + length (concat ((fun g => flatten (content σ g)) <$> gs)) ->
        next σ <= ptr (gather compose gs σ acc).2).
Proof.
  induction 1 as [|g gs Hg _ IH]; intros σ acc [Hwithin Hapart].
  - apply Forall_cons in Hwithin as [[Hlen Hacc] _]. cbn.
    split; [done|]. split; [done|]. split; [lia|]. split; [done|lia].
  - cbn [fmap list_fmap concat] in *.
    apply Forall_cons in Hwithin as [Hacc [Hwg Hwgs]%Forall_app].
    destruct Hapart as [[Hag Hags]%Forall_app (Hg1 & Hgs1 & Hcross)%all_apart_app].
    assert (Group_unshared σ g) as Hung by done.
    rewrite gather_cons.
    destruct (compose_leaves g σ Hung) as (E1 & W1 & L1 & P1).
    pose proof (Hg σ Hung) as S1. cbn [fst snd] in E1, W1, L1, P1. rewrite E1.
    set (σ1 := (compose σ g).1) in *.
    set (xs := flatten (content σ g)) in *.
    pose proof (load_append σ1 acc xs) as E2.
    pose proof (located_append σ1 acc xs) as L2.
    pose proof (preserves_append σ1 acc xs) as P2.
    pose proof (len_append σ1 acc xs) as N2.
    pose proof (append_fits σ1 acc xs) as F2.
    pose proof (append_moves σ1 acc xs) as M2.
    pose proof (fun a => lookup_append_live σ1 acc xs a) as V2.
    pose proof (within_append σ1 acc xs) as W2.
    set (k1 := length xs) in *.
    set (σ2 := (append σ1 acc xs).1) in *.
    set (acc2 := (append σ1 acc xs).2) in *.
    assert (next σ <= next σ1) as N01 by apply P1.
    assert (next σ1 <= next σ2) as N12 by apply P2.
    assert (within σ1 acc) as Hacc1 by (by apply (within_mono σ)).
    specialize (W2 Hacc1).
    assert (unshared σ2 (acc2 :: concat (footprint <$> gs))) as Hun2.
    { by apply (unshared_after_append σ σ1 σ2 acc). }
    destruct (gather_leaves gs (Forall_compose_leaves gs) σ2 acc2 Hun2)
      as (E3 & W3 & L3 & P3).
    destruct (IH σ2 acc2 Hun2) as (A3 & B3 & N3 & C3 & D3).
    set (σ3 := (gather compose gs σ2 acc2).1) in *.
    set (acc3 := (gather compose gs σ2 acc2).2) in *.
    rewrite Forall_forall in Hag, Hags, Hwg, Hwgs.
    assert (preserves σ σ2 (acc :: footprint g)) as P02.
    { eapply preserves_trans; [exact P1|exact P2|].
      intros a Ha Hout. split; intros u Hu; apply Hout.
      - apply elem_of_cons. by right.
      - apply list_elem_of_singleton in Hu as ->. apply elem_of_cons. by left. }
    assert (forall u v, u ∈ concat (footprint <$> gs) -> v ∈ acc :: footprint g ->
                        apart u v) as Hap2.
    { intros u v Hu [->|Hv]%elem_of_cons.
      - by apply apart_sym, Hags.
      - by apply apart_sym, Hcross. }
    assert ((fun g => flatten (content σ2 g)) <$> gs
            = (fun g => flatten (content σ g)) <$> gs) as Hsame.
    { apply Forall_fmap_ext_1, Forall_forall. intros g' Hg'. f_equal.
      apply (content_preserved _ _ (acc :: footprint g)); [done| |].
      - apply Forall_forall. intros u Hu. by apply Hwgs, (in_footprints gs g').
      - intros u v Hu Hv. apply Hap2; [by apply (in_footprints gs g')|done]. }
    rewrite Hsame in *.
    set (K := length (concat ((fun g => flatten (content σ g)) <$> gs))) in *.
    rewrite length_app. fold k1 K.
    assert (preserves σ1 σ3 (acc :: concat (footprint <$> gs))) as P13.
    { eapply preserves_trans; [exact P2|exact P3|].
      intros a Ha Hout. split; intros u Hu.
      - apply list_elem_of_singleton in Hu as ->. apply Hout, elem_of_cons. by left.
      - apply elem_of_cons in Hu as [->|Hu].
        + eapply (located_region σ1); [exact L2|done|]. apply Hout, elem_of_cons. by left.
        + apply Hout, elem_of_cons. by right. }
    split; [|split; [|split; [|split]]].
    + f_equal.
      * rewrite <- S1. apply (content_preserved _ _ (acc :: concat (footprint <$> gs))).
        -- done.
        -- apply Forall_forall. intros u Hu. apply (within_mono σ); [done|by apply Hwg].
        -- intros u v Hu [->|Hv]%elem_of_cons; [by apply apart_sym, Hag|by apply Hcross].
      * rewrite A3. apply Forall_fmap_ext_1, Forall_forall. intros g' Hg'.
        apply (settle_preserved _ _ (acc :: footprint g)); [done| |].
        -- apply Forall_forall. intros u Hu. by apply Hwgs, (in_footprints gs g').
        -- intros u v Hu Hv. apply Hap2; [by apply (in_footprints gs g')|done].
    + intros a Ha. destruct Hacc as [Hlen Hin].
      assert (cells σ1 !!! a = cells σ !!! a) as <-.
      { apply P1; [lia|]. intros u Hu. apply (apart_region acc); [by apply Hag|].
        unfold in_region. lia. }
      assert (cells σ2 !!! a = cells σ1 !!! a) as <-.
      { apply V2; [done|lia]. }
      destruct (decide (len acc + k1 <= cap acc)) as [Hfit|Hfit].
      * apply B3. rewrite (F2 Hfit). cbn. lia.
      * apply P3; [lia|]. intros u [->|Hu]%elem_of_cons.
        -- unfold in_region. rewrite (M2 ltac:(lia)). lia.
        -- apply (apart_region acc); [by apply Hags|]. unfold in_region. lia.
    + rewrite N3, N2. lia.
    + intros Hfit. rewrite C3; rewrite (F2 ltac:(lia)); cbn; [done|lia].
    + intros Hfit. destruct (decide (len acc + k1 <= cap acc)) as [Hfit1|Hfit1].
      * assert (next σ2 <= ptr acc3); [|lia].
        apply D3. rewrite (F2 Hfit1). cbn. lia.
      * specialize (M2 ltac:(lia)). destruct L3 as [[L3 _]|L3]; lia.
Qed.

Lemma compose_eq σ (gs : list Group) rs (mw : list Mware) :
  compose σ (mkGroup gs rs mw)
  = (wrap_cells (gather compose gs σ rs).1 (gather compose gs σ rs).2 mw,
     (gather compose gs σ rs).2).
Proof. cbn [compose]. by destruct (gather compose gs σ rs). Qed.

(** In unshared storage [compose] leaves the Group settled. *)
Lemma compose_settles g :
  forall σ, Group_unshared σ g -> content (compose σ g).1 g = settle σ g.
Proof.
  induction g as [gs rs mw IH] using Group_nested_ind. intros σ Hun.
  destruct (gather_leaves gs (Forall_compose_leaves gs) σ rs Hun) as (E & W & L & P).
  destruct (gather_settles gs IH σ rs Hun) as (A & B & N & C & D).
  rewrite compose_eq. cbn [fst content settle].
  set (σ1 := (gather compose gs σ rs).1) in *.
  set (rs1 := (gather compose gs σ rs).2) in *.
  destruct Hun as [Hw [Hrs Hgs]]. apply Forall_cons in Hw as [Hwrs Hw].
  rewrite Forall_forall in Hw, Hrs.
  assert (next σ <= next σ1) as N01 by apply P.
  f_equal.
  - rewrite <- A. apply Forall_fmap_ext_1, Forall_forall. intros g Hg.
    apply (content_preserved _ _ [rs1]).
    + apply preserves_wrap_cells, W.
    + apply Forall_forall. intros u Hu.
      by apply (within_mono σ), Hw, (in_footprints gs g).
    + intros u t Hu ->%list_elem_of_singleton. apply apart_sym.
      eapply (located_apart σ σ rs); [exact L|done|..].
      * by apply Hw, (in_footprints gs g).
      * by apply Hrs, (in_footprints gs g).
  - destruct Hwrs as [Hlen Hin]. case_decide as Hfit.
    + apply load_eq; [by rewrite length_fmap, length_load|].
      intros i Hi. rewrite lookup_total_wrap_cells.
      rewrite decide_True by (rewrite (C Hfit), N; lia).
      rewrite B by lia. symmetry. apply list_lookup_total_correct.
      by rewrite list_lookup_fmap, lookup_load.
    + apply load_eq; [by rewrite length_load|].
      intros i Hi. rewrite lookup_total_wrap_cells.
      assert (next σ <= ptr rs1) by (apply D; lia).
      rewrite decide_False by lia. rewrite B by lia.
      by rewrite lookup_total_load.
Qed.

Lemma Group_unshared_mono σ σ' g :
  next σ <= next σ' -> Group_unshared σ g -> Group_unshared σ' g.
Proof.
  intros Hn [Hw Ha]. split; [|done].
  rewrite Forall_forall in Hw |- *. intros u Hu. by apply (within_mono σ), Hw.
Qed.

(** *** The same run at other addresses *)

Lemma load_moved d σ σ' s : moved d σ σ' -> load σ' (shift d s) = load σ s.
Proof.
  intros [_ Hc]. unfold load. cbn [len shift]. apply list_fmap_ext.
  intros i j _. unfold index. cbn [ptr shift].
  replace (ptr s + d + j) with (ptr s + j + d) by lia. apply Hc.
Qed.

Lemma poke_moved d p (xs : list Route) (m m' : gmap nat Route) :
  (forall a, m' !!! (a + d) = m !!! a) ->
  forall a, poke (p + d) xs m' !!! (a + d) = poke p xs m !!! a.
Proof.
  intros Hc a. rewrite !lookup_total_poke, Hc.
  replace (a + d - (p + d)) with (a - p) by lia.
  repeat case_decide; try done; lia.
Qed.

Lemma append_moved d σ σ' s (xs : list Route) :
  moved d σ σ' ->
  moved d (append σ s xs).1 (append σ' (shift d s) xs).1
  /\ (append σ' (shift d s) xs).2 = shift d (append σ s xs).2.
Proof.
  intros Hm. unfold append. rewrite (load_moved d σ σ' s Hm).
  destruct Hm as [Hn Hc]. cbn [len cap ptr shift].
  case_decide; cbn [fst snd]; (split; [split|]); cbn [next cells].
  - done.
  - intros a. replace (ptr s + d + len s) with (ptr s + len s + d) by lia.
    by apply poke_moved.
  - done.
  - lia.
  - intros a. rewrite Hn. by apply poke_moved.
  - unfold shift. cbn. by rewrite Hn.
Qed.

Lemma wrap_cells_moved d σ σ' s (mw : list Mware) :
  moved d σ σ' -> moved d (wrap_cells σ s mw) (wrap_cells σ' (shift d s) mw).
Proof.
  intros [Hn Hc]. split; [done|]. intros a.
  rewrite !lookup_total_wrap_cells, Hc. cbn [ptr len shift].
  repeat case_decide; try done; lia.
Qed.

Lemma gather_moved d (gs : list Group) :
  Forall (fun g => forall σ σ', moved d σ σ' ->
            moved d (compose σ g).1 (compose σ' (shift_Group d g)).1
            /\ (compose σ' (shift_Group d g)).2 = shift d (compose σ g).2) gs ->
  forall σ σ' acc,
    moved d σ σ' ->
    moved d (gather compose gs σ acc).1
            (gather compose (shift_Group d <$> gs) σ' (shift d acc)).1
    /\ (gather compose (shift_Group d <$> gs) σ' (shift d acc)).2
       = shift d (gather compose gs σ acc).2.
Proof.
  induction 1 as [|g gs Hg _ IH]; intros σ σ' acc Hm; [done|].
  cbn [fmap list_fmap]. rewrite !gather_cons.
  destruct (Hg σ σ' Hm) as [Hm1 ->].
  rewrite (load_moved d _ _ _ Hm1).
  destruct (append_moved d _ _ acc (load (compose σ g).1 (compose σ g).2) Hm1)
    as [Hm2 ->].
  by apply IH.
Qed.

(** [compose] does the same at other addresses. *)
Lemma compose_moved d g :
  forall σ σ', moved d σ σ' ->
    moved d (compose σ g).1 (compose σ' (shift_Group d g)).1
    /\ (compose σ' (shift_Group d g)).2 = shift d (compose σ g).2.
Proof.
  induction g as [gs rs mw IH] using Group_nested_ind. intros σ σ' Hm.
  cbn [shift_Group]. rewrite !compose_eq. cbn [fst snd].
  destruct (gather_moved d gs IH σ σ' rs Hm) as [Hm1 ->].
  split; [by apply wrap_cells_moved|done].
Qed.

(** C2, as amended: for a Group [g] held in unshared storage, with direct
    routes [R], sub-groups [s1, ..., sk] and middleware [W],
    [g.compose()] returns [R ++ s1.compose() ++ ... ++ sk.compose()] with
    every handler wrapped once more by [W] in declaration order, [W]
    outermost; the patterns and the order of the routes are unchanged. *)
Theorem compose_flat_wrapped σ g :
  Group_unshared σ g ->
  let sources := load σ (routes g) ++ concat (composed σ <$> groups g) in
  composed σ g = (fun r => Route_Wrap r (wrap g)) <$> sources
  /\ fn <$> composed σ g = (fun r => chain (wrap g) (fn r)) <$> sources
  /\ pattern <$> composed σ g = pattern <$> sources.
Proof.
  intros Hun sources.
  assert (composed σ g = (fun r => Route_Wrap r (wrap g)) <$> sources) as Heq.
  { rewrite composed_flatten by done. destruct g as [gs rs mw].
    subst sources. cbn [content flatten routes groups wrap].
    do 3 f_equal. rewrite <- list_fmap_compose.
    apply Forall_fmap_ext_1, Forall_forall. intros g' Hg'. cbn.
    symmetry. apply composed_flatten.
    by apply (Group_unshared_sub σ (mkGroup gs rs mw)). }
  rewrite Heq, <- !list_fmap_compose. repeat split.
  - apply list_fmap_ext. intros i r _. cbn. apply fn_wrap_route.
  - apply list_fmap_ext. intros i r _. cbn. apply pattern_wrap_route.
Qed.

(** C4, as amended: what [g.compose()] returns is a function of the
    contents of [g] at the time of the call, so that two Groups with equal
    contents, each in unshared storage, compose to equal lists, and the
    call leaves every cell outside the storage of [g] as it was; but it
    wraps handlers in place in the backing arrays that the caller's Group
    shares.  In unshared storage the call leaves [g] settled: every group
    of the tree whose composed list fits the capacity of its routes slice
    has its direct routes wrapped by its own middleware, the others have
    them as before; a second call returns the flattening of the settled
    tree.  For a Group without sub-groups the caller's routes read
    afterwards as the list returned, every handler wrapped by the group's
    middleware [W], and a second call returns them wrapped by [W] twice;
    nothing changes when [W] is empty. *)
Theorem compose_wraps_in_place :
  (forall σ1 g1 σ2 g2,
      Group_unshared σ1 g1 -> Group_unshared σ2 g2 ->
      content σ1 g1 = content σ2 g2 ->
      composed σ1 g1 = composed σ2 g2)
  /\ (forall σ g,
        Group_unshared σ g ->
        preserves σ (compose σ g).1 (footprint g)
        /\ content (compose σ g).1 g = settle σ g
        /\ composed (compose σ g).1 g = flatten (settle σ g))
  /\ (forall σ g,
        groups g = [] ->
        (compose σ g).2 = routes g
        /\ load (compose σ g).1 (routes g)
           = (fun r => Route_Wrap r (wrap g)) <$> load σ (routes g)
        /\ composed σ g = (fun r => Route_Wrap r (wrap g)) <$> load σ (routes g)
        /\ composed (compose σ g).1 g
           = (fun r => Route_Wrap r (wrap g ++ wrap g)) <$> load σ (routes g)
        /\ (wrap g = [] -> compose σ g = (σ, routes g))).
Proof.
  split; [|split].
  - intros σ1 g1 σ2 g2 H1 H2 Heq. rewrite !composed_flatten by done. by rewrite Heq.
  - intros σ g Hun. destruct (compose_leaves g σ Hun) as (_ & _ & _ & P).
    split; [exact P|]. split; [by apply compose_settles|].
    rewrite composed_flatten.
    + by rewrite compose_settles.
    + apply (Group_unshared_mono σ); [apply P|done].
  - intros σ [gs rs mw]. cbn [groups routes wrap]. intros ->.
    unfold composed. cbn [compose gather fold_left fst snd].
    split; [done|]. split; [apply load_wrap_cells|]. split; [apply load_wrap_cells|].
    split.
    + rewrite wrap_cells_app. apply load_wrap_cells.
    + intros ->. by rewrite wrap_cells_nil.
Qed.

(** C5, as amended: [Route.Wrap] has value semantics, it returns a new
    Route and needs no store; [Routes.Wrap] returns the very slice it was
    given (same pointer, length and capacity) and assigns the wrapped
    handlers to the elements of the shared backing array, so that the
    caller's [rs] reads afterwards as the wrapped collection; the cells
    outside [rs] are as they were. *)
Theorem Wrap_value_and_in_place :
  (forall (r : Route) (mw : list Mware),
      Route_Wrap r mw = {| pattern := pattern r; fn := chain mw (fn r) |})
  /\ (forall σ rs (mw : list Mware),
        (Routes_Wrap σ rs mw).2 = rs
        /\ load (Routes_Wrap σ rs mw).1 rs
           = (fun r => Route_Wrap r mw) <$> load σ rs
        /\ next (Routes_Wrap σ rs mw).1 = next σ
        /\ forall a, ~ (ptr rs <= a < ptr rs + len rs) ->
                     cells (Routes_Wrap σ rs mw).1 !! a = cells σ !! a).
Proof.
  split; [intros r mw; apply wrap_route_eq|].
  intros σ rs mw. cbn [Routes_Wrap fst snd].
  split; [done|]. split; [apply load_wrap_cells|]. split; [done|].
  intros a Ha. rewrite lookup_wrap_cells.
  by rewrite decide_False by (intros [? _]; done).
Qed.

(** C8: wrapping with [mw1] and then with [mw2] is wrapping once with
    [mw1] followed by [mw2], for a Route and for Routes; in particular for
    [[m1]] and [[m2]]. *)
Theorem Wrap_associative :
  (forall (r : Route) (mw1 mw2 : list Mware),
      Route_Wrap (Route_Wrap r mw1) mw2 = Route_Wrap r (mw1 ++ mw2))
  /\ (forall σ rs (mw1 mw2 : list Mware),
        Routes_Wrap (Routes_Wrap σ rs mw1).1 (Routes_Wrap σ rs mw1).2 mw2
        = Routes_Wrap σ rs (mw1 ++ mw2))
  /\ (forall σ rs (r : Route) (m1 m2 : Mware),
        Route_Wrap (Route_Wrap r [m1]) [m2] = Route_Wrap r [m1; m2]
        /\ Routes_Wrap (Routes_Wrap σ rs [m1]).1 (Routes_Wrap σ rs [m1]).2 [m2]
           = Routes_Wrap σ rs [m1; m2]).
Proof.
  assert (forall σ rs (mw1 mw2 : list Mware),
             Routes_Wrap (Routes_Wrap σ rs mw1).1 (Routes_Wrap σ rs mw1).2 mw2
             = Routes_Wrap σ rs (mw1 ++ mw2)) as Hrs.
  { intros σ rs mw1 mw2. unfold Routes_Wrap. cbn [fst snd].
    by rewrite wrap_cells_app. }
  split; [apply Route_Wrap_twice|]. split; [exact Hrs|].
  intros σ rs r m1 m2. split; [apply (Route_Wrap_twice r [m1] [m2])|].
  apply (Hrs σ rs [m1] [m2]).
Qed.

(** C10: without middleware [Handle] returns the adapted handler as it
    is, [Route.Wrap] returns its Route and [Routes.Wrap] leaves the store
    and the slice as they are. *)
Theorem empty_middleware_is_identity (p : string) (v : @any Request World) h' :
  adapt v = Some h' ->
  Handle p v [] = Ret {| pattern := p; fn := h' |}
  /\ (forall r : Route, Route_Wrap r [] = r)
  /\ (forall σ rs, Routes_Wrap σ rs [] = (σ, rs)
                   /\ load (Routes_Wrap σ rs []).1 rs = load σ rs).
Proof.
  intros Hv. split; [|split].
  - by rewrite (Handle_adapt p v h').
  - done.
  - intros σ rs. unfold Routes_Wrap. by rewrite wrap_cells_nil.
Qed.

End Storage.

Section Routing.
Context {Request World Mux : Type} `{!@ServeMux Request World Mux}.
Local Abbreviation Route := (@Route Request World).
Local Abbreviation Mware := (@Mware Request World).
Local Abbreviation Group := (@Group Request World).
Local Abbreviation store := (@store Request World).
Local Abbreviation Router := (@Router Request World Mux).
Implicit Types (σ : store) (s : slice) (r : Router) (mw : list Mware) (server : Mux).

Lemma prefix_full s : prefix (len s) s = s.
Proof. by destruct s. Qed.

Lemma attempts_le (rs : list Route) : forall server, attempts rs server <= length rs.
Proof.
  induction rs as [|x rs IH]; intros server; cbn; [done|].
  destruct (HandleFunc server (pattern x) (fn x)) as [server'|]; [|lia].
  specialize (IH server'). lia.
Qed.

(** When every registration is accepted, every one was attempted. *)
Lemma attempts_accepted (rs : list Route) : forall server server',
  register_all rs server = Accepted server' -> attempts rs server = length rs.
Proof.
  induction rs as [|x rs IH]; intros server server'; cbn; [done|].
  destruct (HandleFunc server (pattern x) (fn x)) as [server1|]; [|done].
  intros Hreg. by rewrite (IH _ _ Hreg).
Qed.

Lemma lookup_total_wrap_loop mw p n (m : gmap nat Route) b :
  fold_left (fun m j => wrap_cell mw (p + j) m) (seq 0 n) m !!! b
  = if decide (p <= b < p + n) then wrap_route (m !!! b) mw else m !!! b.
Proof.
  exact (lookup_total_wrap_cells (Store m 0) (Slice p n n) mw b).
Qed.

(** The second loop of [Router.Compose] from the index [i] on: it hands
    over the routes, wrapped, in slice order until one is refused, and has
    wrapped in place the routes it handed over. *)
Lemma wrap_and_register_from_eq mw s n : forall i (m : gmap nat Route) server,
  wrap_and_register_from mw s (seq i n) m server
  = (fold_left (fun m j => wrap_cell mw (ptr s + j) m)
               (seq i (attempts ((fun j => wrap_route (m !!! (ptr s + j)) mw) <$> seq i n)
                                server))
               m,
     register_all ((fun j => wrap_route (m !!! (ptr s + j)) mw) <$> seq i n) server).
Proof.
  induction n as [|n IH]; intros i m server; [done|].
  cbn [seq wrap_and_register_from fmap list_fmap register_all attempts].
  rewrite lookup_total_wrap_cell, decide_True by done.
  destruct (HandleFunc server (pattern (wrap_route (m !!! (ptr s + i)) mw))
              (fn (wrap_route (m !!! (ptr s + i)) mw))) as [server'|]; [|done].
  rewrite IH. cbn [seq fold_left].
  assert ((fun j => wrap_route (wrap_cell mw (ptr s + i) m !!! (ptr s + j)) mw)
            <$> seq (S i) n
          = (fun j => wrap_route (m !!! (ptr s + j)) mw) <$> seq (S i) n) as ->; [|done].
  apply Forall_fmap_ext_1, Forall_forall. intros j Hj%elem_of_seq.
  rewrite lookup_total_wrap_cell, decide_False by lia. done.
Qed.

(** The second loop of [Router.Compose] hands the routes of the slice,
    wrapped, to the multiplexer in slice order, until one is refused; it
    has wrapped in place the routes it handed over, the refused one
    included. *)
Lemma wrap_and_register_eq mw s σ server :
  wrap_and_register mw s σ server
  = ended (wrap_cells σ (prefix (attempts ((fun x => Route_Wrap x mw) <$> load σ s) server)
                                s) mw)
          (register_all ((fun x => Route_Wrap x mw) <$> load σ s) server).
Proof.
  unfold wrap_and_register. rewrite wrap_and_register_from_eq.
  unfold load, index, Route_Wrap, wrap_cells, prefix. cbn [ptr len].
  by rewrite <- !list_fmap_compose.
Qed.

Context `{Runtime} `{!@Verb_v Request World}.

Lemma Router_Add_cons σ r x v :
  Router_Add σ r (x :: v) = '(σ', r') ← Router_add1 σ r x; Router_Add σ' r' v.
Proof. reflexivity. Qed.

(** [Router.Add] of accepted inputs in unshared storage: the groups and the
    routes are appended in input order and nothing else changes. *)
Lemma Router_Add_merges v :
  forall σ r,
    forallb accepted v = true -> Compose_unshared σ r v ->
    exists σ0 r0,
      Router_Add σ r v = Ret (σ0, r0)
      /\ mux r0 = mux r /\ Router_wrap r0 = Router_wrap r
      /\ Router_groups r0 = Router_groups r ++ added_groups v
      /\ load σ0 (Router_routes r0) = load σ (Router_routes r) ++ added_routes σ v
      /\ Router_unshared σ0 r0
      /\ (forall g, g ∈ Router_groups r0 -> content σ0 g = content σ g).
Proof.
  induction v as [|x v IH]; intros σ r Hacc [Hun Hsl].
  - exists σ, r. unfold added_groups, added_routes in *. cbn in *.
    rewrite !app_nil_r in *. do 5 (split; [done|]). by split.
  - cbn [forallb] in Hacc. apply andb_true_iff in Hacc as [Hx Hv].
    rewrite Router_Add_cons.
    assert (forall (σ' : store) rs' gs' xs,
               (σ', rs') = append σ (Router_routes r) xs \/
               (σ' = σ /\ rs' = Router_routes r /\ xs = []) ->
               Router_groups r ++ added_groups (x :: v) = gs' ++ added_groups v ->
               added_routes σ (x :: v) = xs ++ added_routes σ v ->
               (forall t, t ∈ added_slices v -> t ∈ added_slices (x :: v)) ->
               let r' := {| mux := mux r; Router_groups := gs';
                            Router_routes := rs'; Router_wrap := Router_wrap r |} in
               exists σ0 r0,
                 Router_Add σ' r' v = Ret (σ0, r0)
                 /\ mux r0 = mux r /\ Router_wrap r0 = Router_wrap r
                 /\ Router_groups r0 = Router_groups r ++ added_groups (x :: v)
                 /\ load σ0 (Router_routes r0)
                    = load σ (Router_routes r) ++ added_routes σ (x :: v)
                 /\ Router_unshared σ0 r0
                 /\ (forall g, g ∈ Router_groups r0 -> content σ0 g = content σ g))
      as Hstep.
    { intros σ' rs' gs' xs Hap Hgs Hrs Hin r'.
      assert (load σ' rs' = load σ (Router_routes r) ++ xs
              /\ within σ' rs' /\ located σ (Router_routes r) rs'
              /\ preserves σ σ' [Router_routes r]) as (E & W & L & P).
      { destruct Hun as [Hw _]. apply Forall_cons in Hw as [Hw _].
        destruct Hap as [Hap|(-> & -> & ->)].
        - pose proof (load_append σ (Router_routes r) xs) as E.
          pose proof (within_append σ (Router_routes r) xs Hw) as W.
          pose proof (located_append σ (Router_routes r) xs) as L.
          pose proof (preserves_append σ (Router_routes r) xs) as P.
          rewrite <- Hap in E, W, L, P. cbn [fst snd] in *. done.
        - rewrite app_nil_r.
          split; [done|]. split; [done|]. split; [by left|apply preserves_refl]. }
      rewrite Hgs in Hun. destruct Hun as [Hw [Ha1 Ha2]].
      apply Forall_cons in Hw as [Hw0 Hw].
      rewrite Forall_forall in Hw, Ha1, Hsl.
      assert (next σ <= next σ') as N by apply P.
      destruct (IH σ' r' Hv) as (σ0 & r0 & HA & Hm & Hwr & Hg & Hl & Hu & Hc).
      { split.
        - split.
          + apply Forall_cons. split; [done|]. apply Forall_forall.
            intros u Hu. by apply (within_mono σ), Hw.
          + split; [|done]. apply Forall_forall. intros u Hu.
            by apply (located_apart σ σ (Router_routes r)); [|lia|apply Hw|apply Ha1].
        - apply Forall_forall. intros t Ht. destruct (Hsl t (Hin t Ht)) as [Wt At].
          split; [by apply (within_mono σ)|].
          by apply (located_apart σ σ (Router_routes r)); [|lia|..]. }
      exists σ0, r0. cbn [mux Router_wrap Router_groups Router_routes r'] in *.
      assert (added_routes σ' v = added_routes σ v) as Hsame.
      { unfold added_routes. f_equal. apply Forall_fmap_ext_1, Forall_forall.
        intros y Hy. destruct y; try done.
        apply (load_preserved _ _ [Router_routes r]); [done| |].
        - apply Hsl, Hin. unfold added_slices. apply elem_of_concat.
          eexists. split; [apply list_elem_of_fmap; eexists; split; [done|exact Hy]|].
          by apply list_elem_of_singleton.
        - intros u ->%list_elem_of_singleton. apply apart_sym, Hsl, Hin.
          unfold added_slices. apply elem_of_concat.
          eexists. split; [apply list_elem_of_fmap; eexists; split; [done|exact Hy]|].
          by apply list_elem_of_singleton. }
      split; [done|]. split; [done|]. split; [done|].
      split; [by rewrite Hg, Hgs|].
      split; [by rewrite Hl, E, Hsame, Hrs, app_assoc|].
      split; [done|].
      intros g Hgin. rewrite Hc by done.
      rewrite Hg in Hgin.
      assert (forall u, u ∈ footprint g
                        -> u ∈ concat (footprint <$> gs' ++ added_groups v)) as Hfp.
      { intros u Hin'. apply elem_of_concat. exists (footprint g).
        split; [|done]. apply list_elem_of_fmap. eauto. }
      apply (content_preserved _ _ [Router_routes r]); [done| |].
      - apply Forall_forall. intros u Hin'. by apply Hw, Hfp.
      - intros u t Hin' ->%list_elem_of_singleton. by apply apart_sym, Ha1, Hfp. }
    destruct x; try done; cbn [Router_add1].
    + (* Group *)
      apply (Hstep σ (Router_routes r) _ []); [by right| | |done].
      * unfold added_groups. cbn. by rewrite <- app_assoc.
      * done.
    + (* []Group *)
      apply (Hstep σ (Router_routes r) _ []); [by right| | |done].
      * unfold added_groups. cbn. by rewrite <- app_assoc.
      * done.
    + (* Route *)
      destruct (append σ (Router_routes r) [r0]) as [σ' rs'] eqn:Hap.
      apply (Hstep σ' rs' _ [r0]); [by left| | |done].
      * done.
      * done.
    + (* []Route *)
      destruct (append σ (Router_routes r) (load σ s)) as [σ' rs'] eqn:Hap.
      apply (Hstep σ' rs' _ (load σ s)); [by left| | |].
      * done.
      * done.
      * intros t Ht. unfold added_slices. cbn. apply elem_of_cons. by right.
Qed.

Lemma unshared_group σ s (gs : list Group) g :
  unshared σ (s :: concat (footprint <$> gs)) -> g ∈ gs -> Group_unshared σ g.
Proof.
  intros [Hw [_ Ha]] Hg. apply Forall_cons in Hw as [_ Hw]. split.
  - rewrite Forall_forall in Hw |- *. intros u Hu. apply Hw, elem_of_concat.
    exists (footprint g). split; [|done]. apply list_elem_of_fmap. eauto.
  - apply (all_apart_concat _ _ Ha), list_elem_of_fmap. eauto.
Qed.

(** [Router.Compose] in unshared storage, in terms of the contents at the
    time of the call. *)
Lemma Router_Compose_flatten σ r v :
  forallb accepted v = true -> Compose_unshared σ r v ->
  exists σ',
    Router_Compose σ r v
    = ended σ' (register_all
                  ((fun x => Route_Wrap x (Router_wrap r))
                     <$> ((load σ (Router_routes r) ++ added_routes σ v)
                          ++ concat ((fun g => flatten (content σ g))
                                       <$> (Router_groups r ++ added_groups v))))
                  (mux r)).
Proof.
  intros Hacc Hun.
  destruct (Router_Add_merges v σ r Hacc Hun)
    as (σ0 & r0 & HA & Hm & Hw & Hg & Hl & Hu & Hc).
  unfold Router_Compose. rewrite HA.
  assert (Forall (fun g => forall σ, Group_unshared σ g ->
                    leaves σ (footprint g) (routes g) (flatten (content σ g))
                           (compose σ g)) (Router_groups r0)) as Hall.
  { apply Forall_forall. intros g _. apply compose_leaves. }
  destruct (gather_leaves _ Hall σ0 (Router_routes r0) Hu) as [E _].
  destruct (gather compose (Router_groups r0) σ0 (Router_routes r0)) as [σ1 rs].
  rewrite wrap_and_register_eq.
  cbn [fst snd] in E. rewrite E, Hl, Hw, Hm, <- Hg.
  assert ((fun g => flatten (content σ0 g)) <$> Router_groups r0
          = (fun g => flatten (content σ g)) <$> Router_groups r0) as ->.
  { apply Forall_fmap_ext_1, Forall_forall. intros g Hgin. cbn. by rewrite Hc. }
  by eexists.
Qed.

(** C3, as amended: for a Router [r] and inputs [v] in unshared storage,
    [r.Compose(v...)] first merges [v] through [Add]; the routes of [r]
    and of [v] come first and every top-level group's composition follows
    in declaration order; each handler is wrapped by the router's
    middleware, in declaration order, outside what it carries; each pair
    of pattern and handler is handed to the multiplexer's [HandleFunc] in
    that order, and [Compose] itself checks no pattern.  [Compose] returns
    the multiplexer when the multiplexer accepts every registration; it
    panics at the first registration the multiplexer refuses, with the
    registrations before that one made. *)
Theorem Router_Compose_registers σ r v :
  forallb accepted v = true -> Compose_unshared σ r v ->
  let sources := (load σ (Router_routes r) ++ added_routes σ v)
                 ++ concat (composed σ <$> (Router_groups r ++ added_groups v)) in
  let wrapped := (fun x => {| pattern := pattern x;
                              fn := chain (Router_wrap r) (fn x) |}) <$> sources in
  exists σ0 r0 σ',
    Router_Add σ r v = Ret (σ0, r0)
    /\ Router_groups r0 = Router_groups r ++ added_groups v
    /\ load σ0 (Router_routes r0) = load σ (Router_routes r) ++ added_routes σ v
    /\ Router_Compose σ r v = ended σ' (register_all wrapped (mux r))
    /\ (forall server, register_all wrapped (mux r) = Accepted server ->
                       Router_Compose σ r v = Returns σ' server)
    /\ (forall server, register_all wrapped (mux r) = Refused server ->
                       Router_Compose σ r v = Panics σ' server).
Proof.
  intros Hacc Hun sources wrapped.
  destruct (Router_Add_merges v σ r Hacc Hun) as (σ0 & r0 & HA & _ & _ & Hg & Hl & _).
  destruct (Router_Compose_flatten σ r v Hacc Hun) as (σ' & HC).
  exists σ0, r0, σ'. do 3 (split; [done|]).
  assert (Router_Compose σ r v = ended σ' (register_all wrapped (mux r))) as HC'.
  { rewrite HC. subst wrapped sources.
    assert ((fun g => flatten (content σ g)) <$> Router_groups r ++ added_groups v
            = composed σ <$> Router_groups r ++ added_groups v) as ->.
    { apply Forall_fmap_ext_1, Forall_forall. intros g Hgin.
      symmetry. apply composed_flatten. destruct Hun as [Hun _].
      by apply (unshared_group σ (Router_routes r)
                  (Router_groups r ++ added_groups v)). }
    f_equal. f_equal.
    apply list_fmap_ext. intros i x _. apply wrap_route_eq. }
  split; [exact HC'|]. split; intros server Hreg; by rewrite HC', Hreg.
Qed.

(** *** The same run at other addresses *)

Lemma Router_add1_moved d σ σ' r x :
  accepted x = true -> moved d σ σ' ->
  exists σ1 σ1' r1,
    Router_add1 σ r x = Ret (σ1, r1)
    /\ Router_add1 σ' (shift_Router d r) (shift_any d x) = Ret (σ1', shift_Router d r1)
    /\ moved d σ1 σ1'.
Proof.
  destruct x; try done; intros _ Hm; cbn [Router_add1 shift_any].
  - eexists σ, σ', _. split; [done|]. split; [|done].
    unfold shift_Router. cbn. by rewrite fmap_app.
  - eexists σ, σ', _. split; [done|]. split; [|done].
    unfold shift_Router. cbn. by rewrite fmap_app.
  - destruct (append_moved d σ σ' (Router_routes r) [r0] Hm) as [Hm1 Hs].
    cbn [shift_Router Router_routes].
    destruct (append σ (Router_routes r) [r0]) as [σ1 rs1].
    destruct (append σ' (shift d (Router_routes r)) [r0]) as [σ1' rs1'].
    cbn [fst snd] in Hm1, Hs. subst rs1'. by eexists _, _, _.
  - rewrite (load_moved d σ σ' s Hm).
    destruct (append_moved d σ σ' (Router_routes r) (load σ s) Hm) as [Hm1 Hs].
    cbn [shift_Router Router_routes].
    destruct (append σ (Router_routes r) (load σ s)) as [σ1 rs1].
    destruct (append σ' (shift d (Router_routes r)) (load σ s)) as [σ1' rs1'].
    cbn [fst snd] in Hm1, Hs. subst rs1'. by eexists _, _, _.
Qed.

Lemma Router_Add_moved d v :
  forall σ σ' r,
    forallb accepted v = true -> moved d σ σ' ->
    exists σ0 σ0' r0,
      Router_Add σ r v = Ret (σ0, r0)
      /\ Router_Add σ' (shift_Router d r) (shift_any d <$> v)
         = Ret (σ0', shift_Router d r0)
      /\ moved d σ0 σ0'.
Proof.
  induction v as [|x v IH]; intros σ σ' r Hacc Hm.
  - by exists σ, σ', r.
  - cbn [forallb] in Hacc. apply andb_true_iff in Hacc as [Hx Hv].
    destruct (Router_add1_moved d σ σ' r x Hx Hm) as (σ1 & σ1' & r1 & E1 & E1' & Hm1).
    cbn [fmap list_fmap]. rewrite !Router_Add_cons, E1, E1'. by apply IH.
Qed.

(** [Router.Compose] ends the same way at other addresses. *)
Lemma Router_Compose_moved d σ σ' r v :
  forallb accepted v = true -> moved d σ σ' ->
  exists σ1 σ1' reg,
    Router_Compose σ r v = ended σ1 reg
    /\ Router_Compose σ' (shift_Router d r) (shift_any d <$> v) = ended σ1' reg
    /\ moved d σ1 σ1'.
Proof.
  intros Hacc Hm.
  destruct (Router_Add_moved d v σ σ' r Hacc Hm) as (σ0 & σ0' & r0 & HA & HA' & Hm0).
  unfold Router_Compose. rewrite HA, HA'.
  cbn [shift_Router Router_groups Router_routes Router_wrap mux].
  assert (Forall (fun g => forall σ σ', moved d σ σ' ->
                    moved d (compose σ g).1 (compose σ' (shift_Group d g)).1
                    /\ (compose σ' (shift_Group d g)).2 = shift d (compose σ g).2)
                 (Router_groups r0)) as Hall.
  { apply Forall_forall. intros g _. apply compose_moved. }
  destruct (gather_moved d _ Hall σ0 σ0' (Router_routes r0) Hm0) as [Hm1 Hs].
  destruct (gather compose (Router_groups r0) σ0 (Router_routes r0)) as [σa sa].
  destruct (gather compose (shift_Group d <$> Router_groups r0) σ0'
              (shift d (Router_routes r0))) as [σb sb].
  cbn [fst snd] in Hm1, Hs. subst sb.
  rewrite !wrap_and_register_eq, (load_moved d σa σb sa Hm1).
  eexists _, _, _. split; [done|]. split; [done|].
  match goal with
  | |- moved d (wrap_cells σa (prefix ?k sa) ?w) _ =>
      exact (wrap_cells_moved d σa σb (prefix k sa) w Hm1)
  end.
Qed.

(** *** Configuration errors *)

Lemma Group_Add_cons σ (g : Group) x v :
  Group_Add σ g (x :: v) = '(σ', g') ← Group_add1 σ g x; Group_Add σ' g' v.
Proof. reflexivity. Qed.

Lemma Group_add1_accepted σ (g : Group) x :
  accepted x = true -> exists σ' g', Group_add1 σ g x = Ret (σ', g').
Proof.
  destruct x; try done; intros _; cbn [Group_add1];
    try (destruct (append _ _ _)); eauto.
Qed.

Lemma Router_add1_accepted σ r x :
  accepted x = true -> exists σ' r', Router_add1 σ r x = Ret (σ', r').
Proof.
  destruct x; try done; intros _; cbn [Router_add1];
    try (destruct (append _ _ _)); eauto.
Qed.

(** C7: every configuration error ends the process with exit status 1
    and a diagnostic, and nothing else fails.  [Handle] exits exactly when
    its input is not a recognized handler, and the diagnostic names the
    dynamic type received.  [Group.Add] and [Router.Add] exit at the first
    input that is not a Group, a []Group, a Route or a []Route; for a
    string the diagnostic tells the caller to use [Handle].  Every outcome
    is a return or an exit: there is no error value. *)
Theorem configuration_errors_are_fatal :
  (forall (p : string) (v : any) (mw : list Mware),
      match adapt v with
      | Some h' => Handle p v mw = Ret (Route_Wrap {| pattern := p; fn := h' |} mw)
      | None =>
          Handle p v mw
          = Exit 1 ("require either http.Handler or http.HandlerFunc got: "
                    +:+ type_name_of v)
      end)
  /\ (forall σ (g : Group) (v : list any),
        match find (fun x => negb (accepted x)) v with
        | None => exists σ' g', Group_Add σ g v = Ret (σ', g')
        | Some (OfString _) =>
            Group_Add σ g v = Exit 1 "use srv.Handle() to add an endpoint"
        | Some x => Group_Add σ g v = Exit 1 ("unknown type: " +:+ type_name_of x)
        end)
  /\ (forall σ r (v : list any),
        match find (fun x => negb (accepted x)) v with
        | None => exists σ' r', Router_Add σ r v = Ret (σ', r')
        | Some (OfString _) | Some (OfHandlerFunc _) =>
            Router_Add σ r v = Exit 1 "use srv.Handle() to add endpoint"
        | Some x =>
            Router_Add σ r v
            = Exit 1 ("unknown type: " +:+ type_name_of x +:+ " " +:+ verb_v x)
        end).
Proof.
  split; [|split].
  - intros p v mw. unfold Handle. by destruct v.
  - intros σ g v. revert σ g. induction v as [|x v IH]; intros σ g; [cbn; eauto|].
    rewrite Group_Add_cons. cbn [find]. destruct (accepted x) eqn:Hx; cbn [negb].
    + destruct (Group_add1_accepted σ g x Hx) as (σ' & g' & ->). apply IH.
    + by destruct x.
  - intros σ r v. revert σ r. induction v as [|x v IH]; intros σ r; [cbn; eauto|].
    rewrite Router_Add_cons. cbn [find]. destruct (accepted x) eqn:Hx; cbn [negb].
    + destruct (Router_add1_accepted σ r x Hx) as (σ' & r' & ->). apply IH.
    + by destruct x.
Qed.

End Routing.

(** A value of the named type [Routes], as [Routes.Wrap] returns it, is not
    a [[]Route] for the type switch of [Add]. *)
Example Add_of_Routes_is_fatal :
  Group_Add one_route zero_Group [OfRoutes (Slice 0 1 1)]
  = Exit 1 "unknown type: srv.Routes"
  /\ Router_Add one_route NewRouter [OfRoutes (Slice 0 1 1)]
     = Exit 1 ("unknown type: srv.Routes " +:+ verb_v (OfRoutes (Slice 0 1 1))).
Proof. split; reflexivity. Qed.

Example Handle_of_string_is_fatal :
  Handle (Request := unit) (World := list string) "/a" (OfString "/b") []
  = Exit 1 "require either http.Handler or http.HandlerFunc got: string".
Proof. reflexivity. Qed.

(** C9: composition is deterministic.  A second run in which the same
    Router tree and the same inputs lie at other addresses ends as the
    first: it hands the same routes with the same handlers to the
    multiplexer in the same order, whatever storage the tree shares, and
    returns the same multiplexer or panics at the same registration, one
    store being the other at the other addresses.  And composition is a
    function of the contents of the tree: two Routers that stand for the
    same contents, wherever each is stored and whatever capacities the
    runtime picks in either run, compose to the flat route list of those
    contents, with the same patterns and the same wrapping, and register
    it in the same order, to the same end. *)
Theorem Router_Compose_deterministic {Request World Mux : Type}
  `{!@ServeMux Request World Mux} `{!@Verb_v Request World} (run1 run2 : Runtime) :
  (forall d (σ σ' : @store Request World) (r : @Router Request World Mux)
          (v : list (@any Request World)),
      forallb accepted v = true -> moved d σ σ' ->
      exists σ1 σ1' reg,
        Router_Compose (H := run1) σ r v = ended σ1 reg
        /\ Router_Compose (H := run1) σ' (shift_Router d r) (shift_any d <$> v)
           = ended σ1' reg
        /\ moved d σ1 σ1')
  /\ (forall (σ1 σ2 : @store Request World) (r1 r2 : @Router Request World Mux)
             (v1 v2 : list (@any Request World)) T,
        Router_tree σ1 r1 v1 T ->
        Router_tree σ2 r2 v2 T ->
        mux r1 = mux r2 ->
        exists σ1' σ2',
          Router_Compose (H := run1) σ1 r1 v1
          = ended σ1' (register_all (Router_flat T) (mux r1))
          /\ Router_Compose (H := run2) σ2 r2 v2
             = ended σ2' (register_all (Router_flat T) (mux r1))).
Proof.
  split; [intros d σ σ' r v; apply Router_Compose_moved|].
  intros σ1 σ2 r1 r2 v1 v2 T (Hacc1 & Hun1 & HT1) (Hacc2 & Hun2 & HT2) Hmux.
  destruct (Router_Compose_flatten (H0 := run1) σ1 r1 v1 Hacc1 Hun1) as (σ1' & HC1).
  destruct (Router_Compose_flatten (H0 := run2) σ2 r2 v2 Hacc2 Hun2) as (σ2' & HC2).
  exists σ1', σ2'.
  assert (forall σ (gs : list (@Group Request World)),
             (fun g => flatten (content σ g)) <$> gs
             = flatten <$> (content σ <$> gs)) as Hflat.
  { intros σ gs. by rewrite <- list_fmap_compose. }
  rewrite HC1, HC2, !Hflat, <- Hmux. unfold Router_content in HT1, HT2.
  split; [by subst T|]. by rewrite <- HT2.
Qed.

(** *** Redirect *)

(** C6: the handler of [Redirect(HTTP, HTTPS)] replaces the host
    ["localhost"+HTTP] by ["localhost"+HTTPS] and leaves any other host as
    it is; the target is ["https://"] followed by the host and the path,
    and by ["?"] and the raw query exactly when the raw query is not empty;
    the response is the redirection to that target with status 307. *)
Theorem Redirect_target (HTTP HTTPS : string) (req : HttpRequest) :
  let host := if decide (Host req = "localhost" +:+ HTTP)
              then "localhost" +:+ HTTPS else Host req in
  let base := "https://" +:+ host +:+ URL_Path req in
  Redirect HTTP HTTPS req
  = ({| Host := host; URL_Path := URL_Path req; URL_RawQuery := URL_RawQuery req |},
     {| target := if decide (URL_RawQuery req = "")
                  then base else base +:+ "?" +:+ URL_RawQuery req;
        code := 307 |}).
Proof.
  destruct req as [host path query]. cbn [Host URL_Path URL_RawQuery]. unfold Redirect.
  cbn [Host URL_Path URL_RawQuery].
  destruct (String.eqb_spec host ("localhost" +:+ HTTP)) as [->|Hne].
  - rewrite decide_True by done. cbn [Host URL_Path URL_RawQuery].
    destruct query; [done|]. rewrite decide_False by done. done.
  - rewrite decide_False by done. cbn [Host URL_Path URL_RawQuery].
    destruct query; [done|]. rewrite decide_False by done. done.
Qed.

Example Redirect_localhost :
  Redirect ":8080" ":8443" (mkRequest "localhost:8080" "/foo" "")
  = (mkRequest "localhost:8443" "/foo" "", mkRedirection "https://localhost:8443/foo" 307).
Proof. reflexivity. Qed.

Example Redirect_query :
  Redirect ":8080" ":8443" (mkRequest "localhost:8080" "/foo" "a=1")
  = (mkRequest "localhost:8443" "/foo" "a=1",
     mkRedirection "https://localhost:8443/foo?a=1" 307).
Proof. reflexivity. Qed.

Example Redirect_other_host :
  Redirect ":8080" ":8443" (mkRequest "example.org" "/foo" "")
  = (mkRequest "example.org" "/foo" "", mkRedirection "https://example.org/foo" 307).
Proof. reflexivity. Qed.

(** * Further properties: how the operations combine *)

Section Building.
Context {Request World : Type}.
Local Abbreviation Mware := (@Mware Request World).

(** X1: [Handle(p, h, mw1..., mw2...)] is [Handle(p, h, mw1...)] followed by
    [Wrap(mw2...)] on the Route it returns; when [h] is no handler both end
    the process with the same diagnostic. *)
Theorem Handle_then_Wrap (p : string) (v : @any Request World) (mw1 mw2 : list Mware) :
  Handle p v (mw1 ++ mw2) = r ← Handle p v mw1; Ret (Route_Wrap r mw2).
Proof.
  unfold Handle, Route_Wrap.
  destruct (as_Handler v); [cbn; by rewrite wrap_route_app|].
  destruct v; cbn; try done; by rewrite wrap_route_app.
Qed.

End Building.

Section Sharing.
Context {Request World : Type} `{Runtime}.
Local Abbreviation Route := (@Route Request World).
Local Abbreviation Mware := (@Mware Request World).
Local Abbreviation Group := (@Group Request World).
Local Abbreviation store := (@store Request World).
Implicit Types (σ : store) (s t acc : slice) (l : list slice) (g : Group).


Lemma gather_len (gs : list Group) :
  Forall (fun g => forall σ, len (compose σ g).2 = route_count g) gs ->
  forall σ acc,
    len (gather compose gs σ acc).2 = len acc + sum_list (route_count <$> gs).
Proof.
  induction 1 as [|g gs Hg _ IH]; intros σ acc; [cbn; lia|].
  rewrite gather_cons, IH, len_append, length_load, Hg. cbn. lia.
Qed.

(** X3: [g.compose()] returns as many routes as the routes slices of the
    tree of [g] hold, whatever storage they share: none is dropped and
    none is added. *)
Theorem compose_keeps_count σ g :
  len (compose σ g).2 = route_count g /\ length (composed σ g) = route_count g.
Proof.
  assert (forall g σ, len (compose σ g).2 = route_count g) as Hlen.
  { clear. induction g as [gs rs mw IH] using Group_nested_ind. intros σ.
    rewrite compose_eq. cbn [snd route_count]. by apply gather_len. }
  split; [apply Hlen|]. unfold composed.
  specialize (Hlen g σ). destruct (compose σ g) as [σ' s].
  by rewrite length_load.
Qed.

(** The loop over the groups writes to the storage of the accumulator and
    of the groups only, shared or not. *)
Lemma gather_frame (gs : list Group) :
  Forall (fun g => forall σ, Forall (within σ) (footprint g) ->
            within (compose σ g).1 (compose σ g).2
            /\ preserves σ (compose σ g).1 (footprint g)) gs ->
  forall σ acc,
    Forall (within σ) (acc :: concat (footprint <$> gs)) ->
    within (gather compose gs σ acc).1 (gather compose gs σ acc).2
    /\ located σ acc (gather compose gs σ acc).2
    /\ preserves σ (gather compose gs σ acc).1 (acc :: concat (footprint <$> gs)).
Proof.
  induction 1 as [|g gs Hg _ IH]; intros σ acc Hw.
  - apply Forall_cons in Hw as [Hacc _]. cbn.
    split; [done|]. split; [by left|apply preserves_refl].
  - cbn [fmap list_fmap concat] in *.
    apply Forall_cons in Hw as [Hacc [Hwg Hwgs]%Forall_app].
    rewrite gather_cons.
    destruct (Hg σ Hwg) as [W1 P1].
    destruct (compose σ g) as [σ1 t]. cbn [fst snd] in *.
    assert (next σ <= next σ1) as N1 by apply P1.
    pose proof (within_append σ1 acc (load σ1 t) (within_mono _ _ _ N1 Hacc)) as W2.
    pose proof (located_append σ1 acc (load σ1 t)) as L2.
    pose proof (preserves_append σ1 acc (load σ1 t)) as P2.
    destruct (append σ1 acc (load σ1 t)) as [σ2 acc2]. cbn [fst snd] in *.
    assert (next σ1 <= next σ2) as N2 by apply P2.
    destruct (IH σ2 acc2) as (W3 & L3 & P3).
    { apply Forall_cons. split; [done|].
      eapply Forall_impl; [exact Hwgs|]. intros u Hu. apply (within_mono σ); [lia|done]. }
    split; [done|]. split.
    + eapply (located_trans σ σ2); [|exact L3|lia].
      destruct L2 as [L2|L2]; [by left|right; lia].
    + assert (preserves σ σ2 (acc :: footprint g)) as P02.
      { eapply preserves_trans; [exact P1|exact P2|].
        intros a Ha Hout. split; intros u Hu; apply Hout.
        - apply elem_of_cons. by right.
        - apply list_elem_of_singleton in Hu as ->. apply elem_of_cons. by left. }
      apply (preserves_trans σ σ2 _ (acc :: footprint g) (acc2 :: concat (footprint <$> gs)));
        [done|done|].
      intros a Ha Hout. split; intros u Hu.
      * apply Hout. apply elem_of_cons in Hu as [->|Hu]; apply elem_of_cons; [by left|right].
        apply elem_of_app. by left.
      * apply elem_of_cons in Hu as [->|Hu].
        -- eapply (located_region σ1); [exact L2|lia|]. apply Hout, elem_of_cons. by left.
        -- apply Hout, elem_of_cons. right. apply elem_of_app. by right.
Qed.

Lemma compose_frame g :
  forall σ, Forall (within σ) (footprint g) ->
    within (compose σ g).1 (compose σ g).2
    /\ located σ (routes g) (compose σ g).2
    /\ preserves σ (compose σ g).1 (footprint g).
Proof.
  induction g as [gs rs mw IH] using Group_nested_ind. intros σ Hw.
  assert (Forall (fun g => forall σ, Forall (within σ) (footprint g) ->
            within (compose σ g).1 (compose σ g).2
            /\ preserves σ (compose σ g).1 (footprint g)) gs) as IH'.
  { eapply Forall_impl; [exact IH|]. intros g Hg σ' Hw'.
    destruct (Hg σ' Hw') as (? & ? & ?). done. }
  destruct (gather_frame gs IH' σ rs Hw) as (W & L & P).
  rewrite compose_eq. cbn [fst snd footprint routes].
  split; [exact W|]. split; [exact L|].
  eapply preserves_trans; [exact P|apply (preserves_wrap_cells _ _ mw), W|].
  intros a Ha Hout. split; [done|].
  intros u ->%list_elem_of_singleton.
  eapply located_region; [exact L|done|]. apply Hout, elem_of_cons. by left.
Qed.

(** X4: when every routes slice of the tree of [g] lies in the store,
    shared with another or not, [g.compose()] changes no allocated cell
    outside the backing arrays of those slices and frees nothing; the
    slice it returns lies in the store and uses the backing array of
    [g.routes] or one allocated during the call. *)
Theorem compose_writes_only_its_tree σ g :
  Forall (within σ) (footprint g) ->
  (forall a, a < next σ -> (forall t, t ∈ footprint g -> ~ in_region a t) ->
             cells (compose σ g).1 !!! a = cells σ !!! a)
  /\ next σ <= next (compose σ g).1
  /\ within (compose σ g).1 (compose σ g).2
  /\ ((ptr (compose σ g).2 = ptr (routes g) /\ cap (compose σ g).2 = cap (routes g))
      \/ next σ <= ptr (compose σ g).2).
Proof.
  intros Hw. destruct (compose_frame g σ Hw) as (W & L & [N P]). done.
Qed.

(** X5: [Group.Add] called twice on one Group value, [a := g.Add(r1)] and
    then [b := g.Add(r2)].  Each result reads, right after its call, as the
    routes of [g] followed by the new route, and [g] reads as before.  When
    [g.routes] has spare capacity, [a] and [b] hold the same slice and the
    second call has replaced [r1] by [r2] in [a]; when it has none, [a] and
    [b] have backing arrays of their own and [a] keeps [r1]. *)
Theorem Add_shares_spare_capacity σ g (r1 r2 : Route) :
  within σ (routes g) ->
  exists σ1 a σ2 b,
    Group_Add σ g [OfRoute r1] = Ret (σ1, a)
    /\ Group_Add σ1 g [OfRoute r2] = Ret (σ2, b)
    /\ load σ1 (routes a) = load σ (routes g) ++ [r1]
    /\ load σ2 (routes b) = load σ (routes g) ++ [r2]
    /\ load σ2 (routes g) = load σ (routes g)
    /\ if decide (len (routes g) < cap (routes g))
       then routes a = routes b /\ load σ2 (routes a) = load σ (routes g) ++ [r2]
       else apart (routes a) (routes b)
            /\ load σ2 (routes a) = load σ (routes g) ++ [r1].
Proof.
  intros Hw. cbn [Group_Add Group_add1].
  pose proof (load_append σ (routes g) [r1]) as E1.
  pose proof (within_append σ (routes g) [r1] Hw) as W1.
  pose proof (preserves_append σ (routes g) [r1]) as P1.
  assert (forall a, a < ptr (routes g) + len (routes g) ->
                    cells (append σ (routes g) [r1]).1 !!! a = cells σ !!! a) as Hlive1
    by (intros a Ha; by apply lookup_append_live).
  assert (load (append σ (routes g) [r1]).1 (routes g) = load σ (routes g)) as Hg1.
  { apply load_ext. intros a Ha. apply Hlive1. lia. }
  pose proof (append_fits σ (routes g) [r1]) as F1.
  pose proof (append_moves σ (routes g) [r1]) as M1.
  destruct (append σ (routes g) [r1]) as [σ1 s1] eqn:A1. cbn [fst snd] in *.
  assert (within σ1 (routes g)) as Hw1 by (apply (within_mono σ); [apply P1|done]).
  pose proof (load_append σ1 (routes g) [r2]) as E2.
  assert (forall a, a < ptr (routes g) + len (routes g) ->
                    cells (append σ1 (routes g) [r2]).1 !!! a = cells σ1 !!! a) as Hlive2
    by (intros a Ha; by apply lookup_append_live).
  pose proof (append_fits σ1 (routes g) [r2]) as F2.
  pose proof (append_moves σ1 (routes g) [r2]) as M2.
  pose proof (preserves_append σ1 (routes g) [r2]) as P2.
  destruct (append σ1 (routes g) [r2]) as [σ2 s2] eqn:A2. cbn [fst snd] in *.
  exists σ1, (mkGroup (groups g) s1 (wrap g)), σ2, (mkGroup (groups g) s2 (wrap g)).
  cbn [routes mbind outcome_bind].
  split; [done|]. split; [by rewrite A2|]. split; [done|].
  split; [by rewrite E2, Hg1|].
  split; [rewrite <- Hg1; apply load_ext; intros a Ha; apply Hlive2; lia|].
  case_decide as Hspare.
  - assert (s1 = s2) as -> by (rewrite F1, F2 by (cbn; lia); done).
    split; [done|]. by rewrite E2, Hg1.
  - assert (ptr s1 = next σ) as Hp1 by (apply M1; cbn; lia).
    assert (ptr s2 = next σ1) as Hp2 by (apply M2; cbn; lia).
    destruct W1 as [Wl Wc]. split; [unfold apart; lia|].
    rewrite <- E1. apply load_ext. intros a Ha.
    destruct P2 as [_ P2]. apply P2; [lia|].
    intros u ->%list_elem_of_singleton. unfold in_region.
    destruct Hw as [? ?]. lia.
Qed.

(** [Group.Add] runs the loop of [Router.Add] on its own three fields. *)
Lemma Router_Add_of_Group {Mux : Type} `{!@Verb_v Request World}
  (m : Mux) (v : list (@any Request World)) :
  forall σ g,
    forallb accepted v = true ->
    Router_Add σ (mkRouter m (groups g) (routes g) (wrap g)) v
    = '(σ', g') ← Group_Add σ g v;
      Ret (σ', mkRouter m (groups g') (routes g') (wrap g')).
Proof.
  induction v as [|x v IH]; intros σ g Hacc; [done|].
  cbn [forallb] in Hacc. apply andb_true_iff in Hacc as [Hx Hv].
  rewrite Router_Add_cons, Group_Add_cons.
  destruct x; try done; cbn [Router_add1 Group_add1 mbind outcome_bind
                              mux Router_groups Router_routes Router_wrap].
  - exact (IH σ (mkGroup (groups g ++ [g0]) (routes g) (wrap g)) Hv).
  - exact (IH σ (mkGroup (groups g ++ gs) (routes g) (wrap g)) Hv).
  - destruct (append σ (routes g) [r]) as [σ' rs].
    exact (IH σ' (mkGroup (groups g) rs (wrap g)) Hv).
  - destruct (append σ (routes g) (load σ s)) as [σ' rs].
    exact (IH σ' (mkGroup (groups g) rs (wrap g)) Hv).
Qed.

(** [Group.Add] of accepted inputs in unshared storage: the groups and the
    routes are appended in input order and nothing else changes. *)
Lemma Group_Add_merges v σ g :
  forallb accepted v = true -> Add_unshared σ g v ->
  exists σ' g',
    Group_Add σ g v = Ret (σ', g')
    /\ wrap g' = wrap g
    /\ groups g' = groups g ++ added_groups v
    /\ load σ' (routes g') = load σ (routes g) ++ added_routes σ v
    /\ Group_unshared σ' g'
    /\ (forall sub, sub ∈ groups g' -> content σ' sub = content σ sub).
Proof.
  intros Hacc Hun.
  pose (V := (fun _ => "") : @Verb_v Request World).
  destruct (Router_Add_merges (H1 := V) v σ
              (mkRouter tt (groups g) (routes g) (wrap g)) Hacc Hun)
    as (σ0 & r0 & HA & _ & Hw & Hg & Hl & Hu & Hc).
  rewrite (Router_Add_of_Group tt v σ g Hacc) in HA.
  destruct (Group_Add σ g v) as [[σ' g']|]; [|done].
  cbn in HA. injection HA as <- <-. cbn in Hw, Hg, Hl, Hc.
  exists σ', g'. do 4 (split; [done|]). split; [|done].
  unfold Group_unshared. rewrite footprint_cons. exact Hu.
Qed.

(** X6: for a Group [g] and inputs [v] that are Groups and Routes, in
    unshared storage, [g.Add(v...)] returns [g] with the groups of [v]
    appended to its groups and the routes of [v] appended to its routes,
    each in input order, and with its middleware as it was; no storage is
    shared afterwards.  Composing the result lists the routes of [g], the
    routes of [v], and then what every group composes to, so a route comes
    before the routes of a group that was added ahead of it. *)
Theorem Add_then_compose σ g (v : list (@any Request World)) :
  forallb accepted v = true -> Add_unshared σ g v ->
  exists σ' g',
    Group_Add σ g v = Ret (σ', g')
    /\ wrap g' = wrap g
    /\ groups g' = groups g ++ added_groups v
    /\ load σ' (routes g') = load σ (routes g) ++ added_routes σ v
    /\ Group_unshared σ' g'
    /\ composed σ' g'
       = (fun r => Route_Wrap r (wrap g))
           <$> ((load σ (routes g) ++ added_routes σ v)
                ++ concat (composed σ <$> (groups g ++ added_groups v))).
Proof.
  intros Hacc Hun.
  destruct (Group_Add_merges v σ g Hacc Hun) as (σ' & g' & HA & Hw & Hg & Hl & Hu & Hc).
  exists σ', g'. do 5 (split; [done|]).
  rewrite (composed_flatten σ' g' Hu).
  destruct g' as [gs' rs' w']. cbn [groups routes wrap content flatten] in *.
  rewrite Hw, Hl, <- list_fmap_compose. do 3 f_equal.
  rewrite <- Hg. apply Forall_fmap_ext_1, Forall_forall. intros sub Hsub. cbn.
  rewrite (Hc sub Hsub). symmetry. apply composed_flatten.
  destruct Hun as [Hun _]. apply (unshared_group σ (routes g) gs'); [|done].
  by rewrite Hg.
Qed.

(** X7: [g.Add(v1..., v2...)] is [g.Add(v1...).Add(v2...)]: the same Group
    and store, or the same exit at the first input that is not taken. *)
Theorem Group_Add_in_sequence σ g (v1 v2 : list (@any Request World)) :
  Group_Add σ g (v1 ++ v2) = '(σ', g') ← Group_Add σ g v1; Group_Add σ' g' v2.
Proof.
  revert σ g. induction v1 as [|x v1 IH]; intros σ g; [done|].
  cbn [app]. rewrite !Group_Add_cons.
  destruct (Group_add1 σ g x) as [[σ1 g1]|]; [|done]. apply IH.
Qed.

End Sharing.

Section Serving.
Context {Request World Mux : Type} `{!@ServeMux Request World Mux}.
Local Abbreviation Route := (@Route Request World).
Local Abbreviation Mware := (@Mware Request World).
Local Abbreviation Group := (@Group Request World).
Local Abbreviation store := (@store Request World).
Local Abbreviation Router := (@Router Request World Mux).
Implicit Types (σ : store) (s : slice) (r : Router) (mw : list Mware) (server : Mux).

Lemma serve_from_eq σ s (js : list nat) : forall server,
  serve_from σ s js server = register_all (index σ s <$> js) server.
Proof.
  induction js as [|j js IH]; intros server; [done|]. cbn.
  destruct (HandleFunc server (pattern (index σ s j)) (fn (index σ s j))); [|done].
  apply IH.
Qed.

Lemma Routes_Serve_eq σ s :
  Routes_Serve σ s = ended σ (register_all (load σ s) NewServeMux).
Proof. unfold Routes_Serve. by rewrite serve_from_eq. Qed.

Context `{Runtime} `{!@Verb_v Request World}.

Lemma Router_Add_keeps v : forall σ r σ' r',
  Router_Add σ r v = Ret (σ', r') -> mux r' = mux r /\ Router_wrap r' = Router_wrap r.
Proof.
  induction v as [|x v IH]; intros σ r σ' r' HA.
  - cbn in HA. by injection HA as <- <-.
  - rewrite Router_Add_cons in HA.
    destruct (Router_add1 σ r x) as [[σ1 r1]|] eqn:Hx; [|done].
    cbn in HA. destruct (IH _ _ _ _ HA) as [-> ->].
    destruct x; try done; cbn [Router_add1] in Hx.
    + by injection Hx as <- <-.
    + by injection Hx as <- <-.
    + destruct (append σ (Router_routes r) [r0]). by injection Hx as <- <-.
    + destruct (append σ (Router_routes r) (load σ s)). by injection Hx as <- <-.
Qed.

(** [Router.Add] reads and writes the groups and the routes only. *)
Lemma Router_Add_fields v : forall σ r (m : Mux) (w : list Mware),
  Router_Add σ (mkRouter m (Router_groups r) (Router_routes r) w) v
  = '(σ', r') ← Router_Add σ r v;
    Ret (σ', mkRouter m (Router_groups r') (Router_routes r') w).
Proof.
  induction v as [|x v IH]; intros σ r m w; [done|].
  rewrite !Router_Add_cons.
  destruct x; try done;
    cbn [Router_add1 mbind outcome_bind mux Router_groups Router_routes Router_wrap].
  - exact (IH σ (mkRouter (mux r) (Router_groups r ++ [g]) (Router_routes r)
                    (Router_wrap r)) m w).
  - exact (IH σ (mkRouter (mux r) (Router_groups r ++ gs) (Router_routes r)
                    (Router_wrap r)) m w).
  - destruct (append σ (Router_routes r) [r0]) as [σ' rs].
    exact (IH σ' (mkRouter (mux r) (Router_groups r) rs (Router_wrap r)) m w).
  - destruct (append σ (Router_routes r) (load σ s)) as [σ' rs].
    exact (IH σ' (mkRouter (mux r) (Router_groups r) rs (Router_wrap r)) m w).
Qed.

(** [Router.Compose] as three steps: [Add], the loop over the groups,
    wrapping and registering. *)
Lemma Router_Compose_eq σ r v :
  Router_Compose σ r v
  = match Router_Add σ r v with
    | Ret (σ0, r0) =>
        wrap_and_register (Router_wrap r)
          (gather compose (Router_groups r0) σ0 (Router_routes r0)).2
          (gather compose (Router_groups r0) σ0 (Router_routes r0)).1
          (mux r)
    | Exit c d => Exits c d
    end.
Proof.
  unfold Router_Compose.
  destruct (Router_Add σ r v) as [[σ0 r0]|] eqn:HA; [|done].
  destruct (Router_Add_keeps _ _ _ _ _ HA) as [Hm Hw].
  destruct (gather compose (Router_groups r0) σ0 (Router_routes r0)) as [σ1 rs].
  by rewrite Hm, Hw.
Qed.

(** X8: [rs.Serve()] hands the pattern and the handler of every route of
    [rs], as stored at the time of the call and in slice order, to
    [HandleFunc] of a new multiplexer, and writes nothing to the store.  It
    returns that multiplexer when every registration is accepted and
    panics at the first one that is refused.  Right after [rs.Wrap(mw...)]
    the handlers it hands over are the wrapped ones; for an empty [rs] it
    returns the new multiplexer with nothing registered.  It ends as
    [Compose()] does on a Router that holds a new multiplexer, the routes
    [rs] and neither groups nor middleware. *)
Theorem Routes_Serve_registers σ s mw :
  Routes_Serve σ s = ended σ (register_all (load σ s) NewServeMux)
  /\ Routes_Serve (Routes_Wrap σ s mw).1 (Routes_Wrap σ s mw).2
     = ended (Routes_Wrap σ s mw).1
             (register_all ((fun x => Route_Wrap x mw) <$> load σ s) NewServeMux)
  /\ (len s = 0 -> Routes_Serve σ s = Returns σ NewServeMux)
  /\ Routes_Serve σ s = Router_Compose σ (mkRouter NewServeMux [] s []) [].
Proof.
  split; [apply Routes_Serve_eq|]. split; [|split].
  - unfold Routes_Wrap. cbn [fst snd]. by rewrite Routes_Serve_eq, load_wrap_cells.
  - intros Hlen. unfold Routes_Serve. by rewrite Hlen.
  - rewrite Router_Compose_eq, Routes_Serve_eq.
    cbn [Router_Add mux Router_groups Router_routes Router_wrap gather fold_left fst snd].
    rewrite wrap_and_register_eq, wrap_cells_nil. do 2 f_equal.
    rewrite <- (list_fmap_id (load σ s)) at 1.
    apply list_fmap_ext. by intros i x _.
Qed.

(** X9: [r.Wrap(mw...).Compose(v...)] hands to the same multiplexer, in
    the same order, the routes that [r.Compose(v...)] hands to it, each
    handler wrapped by [mw] outside what it carries; each of the two calls
    returns when all its registrations are accepted and panics at the
    first that is refused, with the routes it handed over wrapped in place.
    When both return, the store is as [r.Compose(v...)] followed by
    [Routes.Wrap(mw...)] on the composed slice leaves it.  When [Add] ends
    the process, both end it with the same diagnostic.  This holds
    whatever storage is shared. *)
Theorem Router_Wrap_then_Compose σ r (v : list (@any Request World)) mw :
  match Router_Add σ r v with
  | Ret _ =>
      exists σ0 s,
        let L := (fun x => Route_Wrap x (Router_wrap r)) <$> load σ0 s in
        let L' := (fun x => Route_Wrap x mw) <$> L in
        Router_Compose σ r v
        = ended (wrap_cells σ0 (prefix (attempts L (mux r)) s) (Router_wrap r))
                (register_all L (mux r))
        /\ Router_Compose σ (Router_Wrap r mw) v
           = ended (wrap_cells σ0 (prefix (attempts L' (mux r)) s) (Router_wrap r ++ mw))
                   (register_all L' (mux r))
        /\ forall m1 m2,
             register_all L (mux r) = Accepted m1 ->
             register_all L' (mux r) = Accepted m2 ->
             exists σ1,
               Router_Compose σ r v = Returns σ1 m1
               /\ load σ1 s = L
               /\ Router_Compose σ (Router_Wrap r mw) v
                  = Returns (Routes_Wrap σ1 s mw).1 m2
  | Exit c d =>
      Router_Compose σ r v = Exits c d
      /\ Router_Compose σ (Router_Wrap r mw) v = Exits c d
  end.
Proof.
  rewrite !Router_Compose_eq. unfold Router_Wrap, Routes_Wrap.
  cbn [mux Router_wrap fst]. rewrite Router_Add_fields.
  destruct (Router_Add σ r v) as [[σ0 r0]|]; [|done].
  cbn [mbind outcome_bind mux Router_groups Router_routes Router_wrap].
  set (res := gather compose (Router_groups r0) σ0 (Router_routes r0)).
  exists res.1, res.2. cbn zeta. rewrite !wrap_and_register_eq.
  assert ((fun x => Route_Wrap x (Router_wrap r ++ mw)) <$> load res.1 res.2
          = (fun x => Route_Wrap x mw)
              <$> ((fun x => Route_Wrap x (Router_wrap r)) <$> load res.1 res.2)) as ->.
  { rewrite <- list_fmap_compose.
    apply list_fmap_ext. intros i x _. cbn. by rewrite Route_Wrap_twice. }
  split; [done|]. split; [done|]. intros m1 m2 Hreg1 Hreg2.
  rewrite Hreg1, Hreg2, (attempts_accepted _ _ _ Hreg1), (attempts_accepted _ _ _ Hreg2).
  rewrite !length_fmap, length_load, prefix_full. cbn [ended].
  eexists. split; [done|]. split; [apply load_wrap_cells|].
  by rewrite wrap_cells_app.
Qed.

(** X10: after [r.Set(m)], [r.Compose(v...)] hands to [m], in the same
    order, the routes it would have handed to the multiplexer [r] held;
    it returns [m] when [m] accepts them all and panics at the first one
    [m] refuses, with the routes it handed over wrapped in place.  When
    [Add] ends the process, it does so with or without [Set]. *)
Theorem Router_Set_then_Compose σ r (v : list (@any Request World)) (m : Mux) :
  match Router_Add σ r v with
  | Ret _ =>
      exists σ0 s,
        let L := (fun x => Route_Wrap x (Router_wrap r)) <$> load σ0 s in
        Router_Compose σ r v
        = ended (wrap_cells σ0 (prefix (attempts L (mux r)) s) (Router_wrap r))
                (register_all L (mux r))
        /\ Router_Compose σ (Router_Set r m) v
           = ended (wrap_cells σ0 (prefix (attempts L m) s) (Router_wrap r))
                   (register_all L m)
  | Exit c d =>
      Router_Compose σ r v = Exits c d
      /\ Router_Compose σ (Router_Set r m) v = Exits c d
  end.
Proof.
  rewrite !Router_Compose_eq. unfold Router_Set.
  cbn [mux Router_wrap]. rewrite Router_Add_fields.
  destruct (Router_Add σ r v) as [[σ0 r0]|]; [|done].
  cbn [mbind outcome_bind mux Router_groups Router_routes Router_wrap].
  set (res := gather compose (Router_groups r0) σ0 (Router_routes r0)).
  exists res.1, res.2. cbn zeta. by rewrite !wrap_and_register_eq.
Qed.

(** X11: [Compose] wraps the routes of the Router where they are stored.
    A Router without groups that holds the routes [s] and the middleware
    [mw] hands the routes wrapped by [mw] to its multiplexer, up to the
    first one that is refused, and has wrapped in place those it handed
    over.  When all are accepted it returns and leaves the store as
    [Routes(s).Wrap(mw...)] does; composing the same Router again, onto
    another multiplexer, then hands over the routes wrapped by [mw]
    twice. *)
Theorem Compose_wraps_again σ (m m' : Mux) s mw :
  let L := (fun x => Route_Wrap x mw) <$> load σ s in
  let L2 := (fun x => Route_Wrap x (mw ++ mw)) <$> load σ s in
  Router_Compose σ (mkRouter m [] s mw) []
  = ended (wrap_cells σ (prefix (attempts L m) s) mw) (register_all L m)
  /\ forall m1,
       register_all L m = Accepted m1 ->
       Router_Compose σ (mkRouter m [] s mw) [] = Returns (Routes_Wrap σ s mw).1 m1
       /\ Router_Compose (Routes_Wrap σ s mw).1 (Router_Set (mkRouter m [] s mw) m') []
          = ended (wrap_cells (Routes_Wrap σ s mw).1 (prefix (attempts L2 m') s) mw)
                  (register_all L2 m').
Proof.
  intros L L2. rewrite !Router_Compose_eq. unfold Routes_Wrap, Router_Set.
  cbn [Router_Add mux Router_groups Router_routes Router_wrap
       gather fold_left fst snd].
  rewrite !wrap_and_register_eq. fold L.
  split; [done|]. intros m1 Hreg1.
  rewrite Hreg1, (attempts_accepted _ _ _ Hreg1). subst L.
  rewrite length_fmap, length_load, prefix_full. split; [done|].
  rewrite load_wrap_cells.
  assert ((fun x => Route_Wrap x mw) <$> ((fun x => Route_Wrap x mw) <$> load σ s) = L2)
    as ->; [|done].
  subst L2. rewrite <- list_fmap_compose.
  apply list_fmap_ext. intros i x _. cbn. by rewrite Route_Wrap_twice.
Qed.

(** X12: [NewRouter().Wrap(mw...).Compose(rs)] for a []Route [rs] ends as
    [Routes(rs).Wrap(mw...).Serve()] does, returning the same multiplexer
    or panicking at the same registration, but works on a copy: it changes
    no cell that was allocated before the call, where [Routes.Wrap]
    replaces the handlers stored in [rs]. *)
Theorem Compose_serves_a_copy σ s mw :
  exists σ' reg,
    Router_Compose σ (Router_Wrap NewRouter mw) [OfRouteSlice s] = ended σ' reg
    /\ Routes_Serve (Routes_Wrap σ s mw).1 (Routes_Wrap σ s mw).2
       = ended (Routes_Wrap σ s mw).1 reg
    /\ forall a, a < next σ -> cells σ' !!! a = cells σ !!! a.
Proof.
  rewrite Router_Compose_eq. unfold Routes_Wrap. cbn [fst snd].
  rewrite Routes_Serve_eq, load_wrap_cells.
  cbn [Router_Add Router_add1 Router_Wrap NewRouter mux Router_groups Router_routes
       Router_wrap app].
  pose proof (load_append σ nil_slice (load σ s)) as E.
  assert (within σ nil_slice) as W0 by (unfold within; cbn; lia).
  pose proof (within_append σ nil_slice (load σ s) W0) as W.
  pose proof (located_append σ nil_slice (load σ s)) as L.
  pose proof (preserves_append σ nil_slice (load σ s)) as [_ P].
  destruct (append σ nil_slice (load σ s)) as [σ0 s0]. cbn [fst snd] in *.
  cbn [mbind outcome_bind mux Router_groups Router_routes Router_wrap
       gather fold_left fst snd].
  change (load σ nil_slice ++ load σ s) with (load σ s) in E.
  assert (len s0 = len s) as Hlen by (by rewrite <- (length_load σ0 s0), E, length_load).
  rewrite wrap_and_register_eq, E.
  eexists _, _. split; [done|]. split; [done|].
  intros a Ha. rewrite lookup_total_wrap_cells, decide_False.
  - apply P; [done|]. intros u ->%list_elem_of_singleton. unfold in_region. cbn. lia.
  - pose proof (attempts_le ((fun x => Route_Wrap x mw) <$> load σ s) NewServeMux) as Hk.
    rewrite length_fmap, length_load in Hk.
    destruct W as [Wl _]. unfold prefix. cbn [ptr len].
    destruct L as [[L1 L2]|L]; cbn in *; lia.
Qed.

(** X13: [r.Add(v1..., v2...)] is [r.Add(v1...).Add(v2...)], and
    [r.Compose(v1..., v2...)] is [r.Add(v1...).Compose(v2...)]: the same
    result and store, or the same exit at the first input that is not
    taken. *)
Theorem Router_Add_in_sequence σ r (v1 v2 : list (@any Request World)) :
  Router_Add σ r (v1 ++ v2) = ('(σ', r') ← Router_Add σ r v1; Router_Add σ' r' v2)
  /\ Router_Compose σ r (v1 ++ v2)
     = match Router_Add σ r v1 with
       | Ret (σ', r') => Router_Compose σ' r' v2
       | Exit c d => Exits c d
       end.
Proof.
  assert (forall v σ r, Router_Add σ r (v ++ v2)
                        = '(σ', r') ← Router_Add σ r v; Router_Add σ' r' v2) as Hseq.
  { induction v as [|x v IH]; intros σ' r'; [done|].
    cbn [app]. rewrite !Router_Add_cons.
    destruct (Router_add1 σ' r' x) as [[σ1 r1]|]; [|done]. apply IH. }
  split; [apply Hseq|]. unfold Router_Compose. rewrite Hseq.
  by destruct (Router_Add σ r v1) as [[σ1 r1]|].
Qed.

Lemma added_of_routes σ (rs : list Route) :
  added_groups (OfRoute <$> rs) = [] /\ added_slices (OfRoute <$> rs) = []
  /\ added_routes σ (OfRoute <$> rs) = rs.
Proof.
  unfold added_groups, added_slices, added_routes.
  induction rs as [|x rs (IH1 & IH2 & IH3)]; [done|].
  cbn. by rewrite IH1, IH2, IH3.
Qed.

(** X14: the package end to end.  [g := Group{}.Add(r1, ..., rn)] holds
    the routes given, in order, whatever the store held before; and
    [NewRouter().Wrap(wr...).Compose(g.Wrap(wg...))] hands to a new
    multiplexer, in that order, the pattern of each route with its handler
    wrapped by the group's middleware [wg] and, outside it, by the
    router's middleware [wr].  It returns the multiplexer when every
    registration is accepted and panics at the first one that is refused,
    a repeated pattern for net/http. *)
Theorem declared_routes_are_registered σ (rs : list Route) (wg wr : list Mware) :
  exists σ1 g σ2,
    Group_Add σ zero_Group (OfRoute <$> rs) = Ret (σ1, g)
    /\ load σ1 (routes g) = rs
    /\ Router_Compose σ1 (Router_Wrap NewRouter wr) [OfGroup (Group_Wrap g wg)]
       = ended σ2 (register_all
                     ((fun x => {| pattern := pattern x;
                                   fn := chain wr (chain wg (fn x)) |}) <$> rs)
                     NewServeMux).
Proof.
  destruct (added_of_routes σ rs) as (Eg & Es & Er).
  destruct (Group_Add_merges (OfRoute <$> rs) σ zero_Group)
    as (σ1 & g & HA & Hw & Hg & Hl & Hu & _).
  { clear. induction rs as [|x rs IH]; [done|]. exact IH. }
  { unfold Add_unshared. rewrite Eg, Es. cbn. split; [|constructor].
    split; [|done]. repeat constructor; cbn; lia. }
  rewrite Eg in Hg. rewrite Er in Hl. cbn in Hw, Hg, Hl.
  destruct g as [gs s w]. cbn [groups routes wrap] in *. subst gs w.
  destruct (Router_Compose_flatten σ1 (Router_Wrap NewRouter wr)
              [OfGroup (Group_Wrap (mkGroup [] s []) wg)] eq_refl) as (σ2 & HC).
  { destruct Hu as [Hw Ha]. cbn in Hw, Ha. split; [|constructor]. split.
    - cbn. apply Forall_cons. split; [unfold within; cbn; lia|done].
    - cbn. split; [|done].
      repeat constructor. unfold apart. cbn. lia. }
  exists σ1, (mkGroup [] s []), σ2. split; [done|]. split; [done|].
  rewrite HC. cbn. rewrite Hl, !app_nil_r, <- list_fmap_compose. do 2 f_equal.
  apply list_fmap_ext. intros i x _. cbn.
  change (wrap_route (wrap_route x wg) wr = mkRoute (pattern x) (chain wr (chain wg (fn x)))).
  by rewrite wrap_route_eq, pattern_wrap_route, fn_wrap_route.
Qed.

End Serving.

(** X15: the handler of [Redirect] settles after one request: serving the
    request as the handler left it gives the same redirection and leaves
    the request as it is. *)
Theorem Redirect_settles (HTTP HTTPS : string) (req : HttpRequest) :
  Redirect HTTP HTTPS (Redirect HTTP HTTPS req).1 = Redirect HTTP HTTPS req.
Proof.
  destruct req as [host path query]. unfold Redirect. cbn [Host URL_Path URL_RawQuery fst].
  destruct (String.eqb host ("localhost" +:+ HTTP)) eqn:E1;
    cbn [Host URL_Path URL_RawQuery].
  - destruct (String.eqb ("localhost" +:+ HTTPS) ("localhost" +:+ HTTP)); done.
  - by rewrite E1.
Qed.

(** * The theorems at work, and where the claims fail *)

Example Handle_onion_order :
  (r ← Handle "/a" (OfFunc (say "a")) [around "m1"; around "m2"]; Ret (show [r]))
  = Ret [("/a", ["m2>"; "m1>"; "a"; "<m1"; "<m2"])].
Proof. reflexivity. Qed.

(** [Compose] onto a multiplexer that holds the pattern already panics at
    that registration; onto an empty one it returns. *)
Example Compose_onto_taken_pattern :
  registered (Router_Compose one_route
                (Router_Set wrapped_router [("/a", say "old")])
                [OfRouteSlice (Slice 0 1 1)])
  = panicked [("/a", ["old"])]
  /\ registered (Router_Compose one_route (Router_Set wrapped_router [])
                   [OfRouteSlice (Slice 0 1 1)])
     = returned [("/a", ["r>"; "a"; "<r"])].
Proof. split; reflexivity. Qed.

(** [Serve] on routes that repeat a pattern panics at the second. *)
Example Serve_repeated_pattern :
  registered (Routes_Serve two_routes (Slice 0 2 2))
  = returned [("/a", ["a"]); ("/b", ["b"])]
  /\ registered (Routes_Serve
                   {| cells := {[ 0 := {| pattern := "/a"; fn := say "a" |};
                                  1 := {| pattern := "/a"; fn := say "b" |} ]};
                      next := 2 |}
                   (Slice 0 2 2))
     = panicked [("/a", ["a"])].
Proof. split; reflexivity. Qed.

Lemma Handle_wraps_in_order_witness :
  Handle "/a" (OfFunc (say "a")) [around "m1"; around "m2"]
  = Ret {| pattern := "/a"; fn := chain [around "m1"; around "m2"] (say "a") |}.
Proof.
  exact (proj1 (Handle_wraps_in_order "/a" (OfFunc (say "a")) (say "a")
                  [around "m1"; around "m2"] eq_refl)).
Defined.

Lemma nested_unshared : Group_unshared two_routes nested.
Proof.
  split.
  - repeat constructor; cbn; lia.
  - cbn. repeat split; repeat constructor; unfold apart; cbn; lia.
Defined.

Lemma compose_flat_wrapped_witness :
  Group_unshared two_routes nested
  /\ show (composed two_routes nested) = [("/a", ["g>"; "a"; "<g"]);
                                          ("/b", ["g>"; "s>"; "b"; "<s"; "<g"])].
Proof.
  split; [exact nested_unshared|].
  rewrite (proj1 (compose_flat_wrapped two_routes nested nested_unshared)).
  reflexivity.
Defined.

(** C2 fails when a sub-group shares the backing array of its parent:
    [top := g.Add(g.Wrap(m))] for [g := Group{}.Add(Handle("/a", a))].
    Composing the sub-group wraps the one stored route in place, so
    [top.compose()] is [[m(a), m(a)]] and not [[a, m(a)]]. *)
Lemma compose_shared_counterexample :
  show (composed one_route self_nested) = [("/a", ["m>"; "a"; "<m"]);
                                           ("/a", ["m>"; "a"; "<m"])]
  /\ composed one_route self_nested
     <> (fun r => Route_Wrap r (wrap self_nested))
          <$> (load one_route (routes self_nested)
               ++ concat (composed one_route <$> groups self_nested)).
Proof.
  split; [reflexivity|].
  intros Heq. apply (f_equal show) in Heq. vm_compute in Heq. discriminate.
Qed.

Lemma nested_elsewhere_unshared : Group_unshared two_routes_elsewhere nested_elsewhere.
Proof.
  split.
  - repeat constructor; cbn; lia.
  - cbn. repeat split; repeat constructor; unfold apart; cbn; lia.
Defined.

Lemma Compose_nested_unshared :
  Compose_unshared two_routes wrapped_router [OfGroup nested].
Proof.
  split; [split|].
  - repeat constructor; cbn; lia.
  - cbn. repeat split; repeat constructor; unfold apart; cbn; lia.
  - constructor.
Defined.

Lemma Compose_nested_elsewhere_unshared :
  Compose_unshared two_routes_elsewhere wrapped_router [OfGroup nested_elsewhere].
Proof.
  split; [split|].
  - repeat constructor; cbn; lia.
  - cbn. repeat split; repeat constructor; unfold apart; cbn; lia.
  - constructor.
Defined.

Lemma Compose_inputs_unshared :
  Compose_unshared two_routes wrapped_router [OfRouteSlice (Slice 0 1 1); OfGroup leaf_b].
Proof.
  split; [split|].
  - repeat constructor; cbn; lia.
  - cbn. repeat split; repeat constructor; unfold apart; cbn; lia.
  - repeat constructor; unfold apart; cbn; lia.
Defined.

Lemma Router_Compose_registers_witness :
  Compose_unshared two_routes wrapped_router [OfGroup nested]
  /\ registered (Router_Compose two_routes wrapped_router [OfGroup nested])
     = returned [("/a", ["r>"; "g>"; "a"; "<g"; "<r"]);
                 ("/b", ["r>"; "g>"; "s>"; "b"; "<s"; "<g"; "<r"])]
  /\ registered (Router_Compose two_routes wrapped_router
                   [OfRouteSlice (Slice 0 1 1); OfGroup leaf_b])
     = returned [("/a", ["r>"; "a"; "<r"]); ("/b", ["r>"; "s>"; "b"; "<s"; "<r"])].
Proof.
  split; [exact Compose_nested_unshared|]. split.
  - destruct (Router_Compose_registers two_routes wrapped_router [OfGroup nested]
                eq_refl Compose_nested_unshared) as (σ0 & r0 & σ' & _ & _ & _ & -> & _).
    reflexivity.
  - destruct (Router_Compose_registers two_routes wrapped_router
                [OfRouteSlice (Slice 0 1 1); OfGroup leaf_b]
                eq_refl Compose_inputs_unshared) as (σ0 & r0 & σ' & _ & _ & _ & -> & _).
    reflexivity.
Defined.

(** C3 fails when a pattern comes twice:
    [NewRouter().Compose(Handle("/a", a), Handle("/a", b))] does not return
    the multiplexer.  [Compose] hands both routes over without a check of
    its own, and [HandleFunc] panics at the second with the first
    registered.  So it is for two groups that share a backing array,
    [NewRouter().Compose(g.Wrap(m), g)] for [g := Group{}.Add(Handle("/a", a))]:
    the one stored route is handed over twice.  It also fails for an input
    that [Add] does not take: [Compose("/a")] ends the process. *)
Lemma Router_Compose_duplicate_counterexample :
  registered (Router_Compose one_route NewRouter
                [OfRoute {| pattern := "/a"; fn := say "a" |};
                 OfRoute {| pattern := "/a"; fn := say "b" |}])
  = panicked [("/a", ["a"])]
  /\ (~ exists σ' server,
         Router_Compose one_route NewRouter
           [OfRoute {| pattern := "/a"; fn := say "a" |};
            OfRoute {| pattern := "/a"; fn := say "b" |}]
         = Returns σ' server)
  /\ registered (Router_Compose one_route NewRouter
                   [OfGroup wrapped_leaf; OfGroup plain_leaf])
     = panicked [("/a", ["m>"; "a"; "<m"])]
  /\ Router_Compose one_route NewRouter [OfString "/a"]
     = Exits 1 "use srv.Handle() to add endpoint".
Proof.
  split; [reflexivity|]. split; [|split; reflexivity].
  intros (σ' & server & Heq). apply (f_equal registered) in Heq.
  vm_compute in Heq. discriminate.
Qed.

Lemma compose_wraps_in_place_witness :
  composed two_routes nested = composed two_routes_elsewhere nested_elsewhere
  /\ show (composed composed_once.1 nested)
     = [("/a", ["g>"; "a"; "<g"]); ("/b", ["g>"; "s>"; "s>"; "b"; "<s"; "<s"; "<g"])]
  /\ show (composed one_route wrapped_leaf) = [("/a", ["m>"; "a"; "<m"])]
  /\ show (composed (compose one_route wrapped_leaf).1 wrapped_leaf)
     = [("/a", ["m>"; "m>"; "a"; "<m"; "<m"])].
Proof.
  destruct (@compose_wraps_in_place unit (list string) doubling)
    as (Hsame & Hsettle & Hleaf).
  split; [|split; [|split]].
  - apply Hsame; [exact nested_unshared|exact nested_elsewhere_unshared|reflexivity].
  - unfold composed_once.
    destruct (Hsettle two_routes nested nested_unshared) as (_ & _ & ->). reflexivity.
  - destruct (Hleaf one_route wrapped_leaf eq_refl) as (_ & _ & -> & _). reflexivity.
  - destruct (Hleaf one_route wrapped_leaf eq_refl) as (_ & _ & _ & -> & _). reflexivity.
Defined.

(** C4 fails for a group with the route ["/a"] and the middleware [g]
    that holds a sub-group with the route ["/b"] and the middleware [s],
    each routes slice in an array of its own.  After the first
    [compose()] the sub-group's stored route holds the handler [s(b)]
    instead of [b]; the second [compose()] returns ["/b"] with the handler
    [g(s(s(b)))], while the list the first call returned still holds
    [g(s(b))]. *)
Lemma compose_twice_counterexample :
  show (load composed_once.1 (Slice 1 1 1)) = [("/b", ["s>"; "b"; "<s"])]
  /\ show (load two_routes (Slice 1 1 1)) = [("/b", ["b"])]
  /\ show (load composed_twice.1 composed_once.2)
     = [("/a", ["g>"; "a"; "<g"]); ("/b", ["g>"; "s>"; "b"; "<s"; "<g"])]
  /\ show (load composed_twice.1 composed_twice.2)
     = [("/a", ["g>"; "a"; "<g"]); ("/b", ["g>"; "s>"; "s>"; "b"; "<s"; "<s"; "<g"])]
  /\ load composed_once.1 (Slice 1 1 1) <> load two_routes (Slice 1 1 1)
  /\ load composed_twice.1 composed_twice.2 <> load composed_twice.1 composed_once.2
  /\ composed composed_once.1 nested <> composed two_routes nested.
Proof.
  do 4 (split; [reflexivity|]).
  repeat split; intros Heq; apply (f_equal show) in Heq; vm_compute in Heq; discriminate.
Qed.

Lemma Wrap_value_and_in_place_witness :
  show (load (Routes_Wrap one_route (Slice 0 1 1) [around "m"]).1 (Slice 0 1 1))
  = [("/a", ["m>"; "a"; "<m"])]
  /\ cells (Routes_Wrap two_routes (Slice 0 1 1) [around "m"]).1 !! 1
     = cells two_routes !! 1.
Proof.
  destruct (@Wrap_value_and_in_place unit (list string)) as [_ Hrs].
  split.
  - destruct (Hrs one_route (Slice 0 1 1) [around "m"]) as (_ & -> & _). reflexivity.
  - destruct (Hrs two_routes (Slice 0 1 1) [around "m"]) as (_ & _ & _ & Hout).
    apply Hout. cbn. lia.
Defined.

(** C5 fails for [Routes.Wrap]: after [rs.Wrap(m)] on the one-element
    [rs], the caller's [rs] holds the handler [m(a)] instead of [a]. *)
Lemma Routes_Wrap_counterexample :
  load (Routes_Wrap one_route (Slice 0 1 1) [around "m"]).1 (Slice 0 1 1)
  <> load one_route (Slice 0 1 1).
Proof.
  intros Heq. apply (f_equal show) in Heq. vm_compute in Heq. discriminate.
Qed.

Lemma one_route_is_moved : moved 5 one_route one_route_moved.
Proof.
  split; [reflexivity|]. intros [|a]; [reflexivity|].
  cbn [cells one_route one_route_moved].
  rewrite !lookup_total_singleton_ne by lia. reflexivity.
Defined.

Lemma Router_Compose_deterministic_witness :
  registered (Router_Compose two_routes wrapped_router [OfGroup nested])
  = registered (Router_Compose two_routes_elsewhere wrapped_router
                  [OfGroup nested_elsewhere])
  /\ registered (Router_Compose one_route NewRouter
                   [OfGroup wrapped_leaf; OfGroup plain_leaf])
     = registered (Router_Compose one_route_moved (shift_Router 5 NewRouter)
                     [OfGroup (shift_Group 5 wrapped_leaf);
                      OfGroup (shift_Group 5 plain_leaf)]).
Proof.
  destruct (@Router_Compose_deterministic unit (list string) _ recording_mux no_verb_v
              doubling doubling) as [Hmoved Hsame].
  split.
  - destruct (Hsame two_routes two_routes_elsewhere wrapped_router wrapped_router
                [OfGroup nested] [OfGroup nested_elsewhere]
                (Router_content two_routes wrapped_router [OfGroup nested])
                (conj eq_refl (conj Compose_nested_unshared eq_refl))
                (conj eq_refl (conj Compose_nested_elsewhere_unshared eq_refl))
                eq_refl) as (σ1' & σ2' & -> & ->).
    reflexivity.
  - destruct (Hmoved 5 one_route one_route_moved NewRouter
                [OfGroup wrapped_leaf; OfGroup plain_leaf] eq_refl one_route_is_moved)
      as (σ1 & σ1' & reg & -> & Hrun & _).
    cbn [fmap list_fmap shift_any] in Hrun. rewrite Hrun. by destruct reg.
Defined.

Lemma empty_middleware_is_identity_witness :
  Handle "/a" (OfFunc (say "a")) [] = Ret {| pattern := "/a"; fn := say "a" |}.
Proof.
  exact (proj1 (empty_middleware_is_identity "/a" (OfFunc (say "a"))
                  (say "a") eq_refl)).
Defined.

(** [self_nested] shares one backing array between the group and its
    sub-group; composing it in a store that also holds the route ["/b"]
    leaves that route alone. *)
Lemma compose_writes_only_its_tree_witness :
  Forall (within two_routes) (footprint self_nested)
  /\ cells (compose two_routes self_nested).1 !!! 1 = cells two_routes !!! 1.
Proof.
  assert (Forall (within two_routes) (footprint self_nested)) as Hw
    by (repeat constructor; cbn; lia).
  split; [exact Hw|].
  apply (compose_writes_only_its_tree two_routes self_nested Hw); [cbn; lia|].
  intros t Ht. cbn in Ht.
  repeat (apply elem_of_cons in Ht as [->|Ht]; [unfold in_region; cbn; lia|]).
  by apply elem_of_nil in Ht.
Defined.

(** A Group whose routes slice has room for one more route: the route
    ["/c"] that the first [Add] stored is gone after the second. *)
Lemma Add_shares_spare_capacity_witness :
  within two_routes_elsewhere (Slice 9 1 2)
  /\ exists σ1 a σ2 b,
       Group_Add two_routes_elsewhere (mkGroup [] (Slice 9 1 2) [])
                 [OfRoute {| pattern := "/c"; fn := say "c" |}] = Ret (σ1, a)
       /\ Group_Add σ1 (mkGroup [] (Slice 9 1 2) [])
                    [OfRoute {| pattern := "/d"; fn := say "d" |}] = Ret (σ2, b)
       /\ show (load σ1 (routes a)) = [("/a", ["a"]); ("/c", ["c"])]
       /\ show (load σ2 (routes a)) = [("/a", ["a"]); ("/d", ["d"])].
Proof.
  assert (within two_routes_elsewhere (Slice 9 1 2)) as Hw by (unfold within; cbn; lia).
  split; [exact Hw|].
  destruct (Add_shares_spare_capacity two_routes_elsewhere (mkGroup [] (Slice 9 1 2) [])
              {| pattern := "/c"; fn := say "c" |} {| pattern := "/d"; fn := say "d" |} Hw)
    as (σ1 & a & σ2 & b & H1 & H2 & E1 & _ & _ & Hif).
  exists σ1, a, σ2, b. split; [exact H1|]. split; [exact H2|].
  destruct (decide (len (routes (mkGroup [] (Slice 9 1 2) []))
                    < cap (routes (mkGroup [] (Slice 9 1 2) [])))) as [_|Hno].
  - destruct Hif as [_ E2]. rewrite E1, E2. split; reflexivity.
  - exfalso. apply Hno. cbn. lia.
Defined.

(** A group that is given the sub-group [leaf_b] first and the route
    ["/c"] second composes to ["/c"] before ["/b"]. *)
Lemma Add_then_compose_witness :
  Add_unshared two_routes (mkGroup [] (Slice 0 1 1) [around "g"])
               [OfGroup leaf_b; OfRoute {| pattern := "/c"; fn := say "c" |}]
  /\ exists σ' g',
       Group_Add two_routes (mkGroup [] (Slice 0 1 1) [around "g"])
                 [OfGroup leaf_b; OfRoute {| pattern := "/c"; fn := say "c" |}]
       = Ret (σ', g')
       /\ show (composed σ' g')
          = [("/a", ["g>"; "a"; "<g"]); ("/c", ["g>"; "c"; "<g"]);
             ("/b", ["g>"; "s>"; "b"; "<s"; "<g"])].
Proof.
  assert (Add_unshared two_routes (mkGroup [] (Slice 0 1 1) [around "g"])
            [OfGroup leaf_b; OfRoute {| pattern := "/c"; fn := say "c" |}]) as Hun.
  { split; [split|].
    - repeat constructor; cbn; lia.
    - cbn. repeat split; repeat constructor; unfold apart; cbn; lia.
    - constructor. }
  split; [exact Hun|].
  destruct (Add_then_compose two_routes (mkGroup [] (Slice 0 1 1) [around "g"])
              [OfGroup leaf_b; OfRoute {| pattern := "/c"; fn := say "c" |}]
              eq_refl Hun) as (σ' & g' & HA & _ & _ & _ & _ & HC).
  exists σ', g'. split; [exact HA|]. rewrite HC. reflexivity.
Defined.
